(** * The command-line argument engine of [build.py]

    A shallow embedding of the [Reader] cursor, of [get_idx_by_pos], of
    the [Arg] / [TypeParser] records and of [ArgParser] (registration,
    [parse_val] and [parse]), followed by the properties that the design
    document states about them.

    Conventions of the embedding.
    - Python integers are [Z]; a Python [str] is a [string] whose
      characters are the code points below 256; a one-character [str]
      obtained by indexing is an [ascii].
    - A call either returns, raises or runs forever: [outcome].  Loops are
      given a [fuel] bounding the number of times their condition is
      evaluated; [Diverge] is the answer when the fuel is spent.
    - Dictionaries handed to [parse] are objects: they live in a [heap]
      and are passed by location, so that aliasing is visible.
    - Python function objects (switch handlers, the [pfunc] of a type
      parser) are named by an identifier; what calling them does is given
      by an environment [pyenv]. *)

From Stdlib Require Import ZArith Ascii String.
From stdpp Require Import base option list gmap strings.

Local Open Scope Z_scope.

(** ** Python values, exceptions and outcomes *)

(** The values that end up in the output mapping. [VClass] is a class
    object such as the builtin [str]. *)
Inductive value :=
  | VNone
  | VBool (b : bool)
  | VInt (z : Z)
  | VStr (s : string)
  | VClass (cls : string).

(** The exceptions that the modelled code can raise. [ArgError] is the
    engine's own class (a [RuntimeError]); [OtherError] stands for any
    exception class of a collaborator that is not an [ArgError]. *)
Inductive exn :=
  | ArgError (msg : string)
  | KeyError (key : string)
  | IndexError
  | TypeError
  | OtherError (cls msg : string).

Definition is_ArgError (e : exn) : bool :=
  match e with ArgError _ => true | _ => false end.

Inductive outcome (A : Type) :=
  | Ret (a : A)
  | Raise (e : exn)
  | Diverge.
Arguments Ret {A} a.
Arguments Raise {A} e.
Arguments Diverge {A}.

Global Instance outcome_ret : MRet outcome := λ A a, Ret a.
Global Instance outcome_bind : MBind outcome := λ A B f m,
  match m with
  | Ret a => f a
  | Raise e => Raise e
  | Diverge => Diverge
  end.

(** [s[i]] on a [str]: a negative index counts from the end, an index
    outside the string raises [IndexError]. *)
Definition str_getitem (s : string) (i : Z) : outcome ascii :=
  let n := Z.of_nat (String.length s) in
  let j := if i <? 0 then i + n else i in
  if (j <? 0) || (n <=? j) then Raise IndexError
  else match String.get (Z.to_nat j) s with
       | Some c => Ret c
       | None => Raise IndexError
       end.

(** [c.isspace()] on a one-character [str] below code point 256. *)
Definition isspace (c : ascii) : bool :=
  let n := N_of_ascii c in
  ((9 <=? n) && (n <=? 13) || (28 <=? n) && (n <=? 32)
   || (n =? 133) || (n =? 160))%N.

Definition ascii_eqb (a b : ascii) : bool := bool_decide (a = b).

(** [c == 'x'] where [c] is a character or [None]. *)
Definition is_char (c : option ascii) (x : ascii) : bool :=
  match c with
  | Some a => ascii_eqb a x
  | None => false
  end.

(** ** [class Reader] *)

Module Reader.

Record t := mk { str : string; idx : Z }.

Definition init (s : string) : t := mk s 0.

Definition len (self : t) : Z := Z.of_nat (String.length (str self)).

Definition current (self : t) : outcome (option ascii) :=
  if (idx self <? 0) || (len self <=? idx self) then Ret None
  else c ← str_getitem (str self) (idx self); Ret (Some c).

Definition next (self : t) (amt : Z) : outcome (option ascii * t) :=
  let self := mk (str self) (idx self + amt) in
  if (idx self <? 0) || (len self <=? idx self) then Ret (None, self)
  else c ← str_getitem (str self) (idx self); Ret (Some c, self).

Definition prev (self : t) (amt : Z) : outcome (option ascii * t) :=
  let self := mk (str self) (idx self - amt) in
  if (idx self <? 0) || (len self <=? idx self) then Ret (None, self)
  else c ← str_getitem (str self) (idx self); Ret (Some c, self).

Definition peek (self : t) (off : Z) : outcome (option ascii) :=
  let idx := idx self + off in
  if (len self <=? idx) || (idx <? 0) then Ret None
  else c ← str_getitem (str self) idx; Ret (Some c).

(** [at] is a keyword of Rocq, hence the underscore. *)
Definition at_ (self : t) (index : Z) : outcome (option ascii) :=
  if 0 <? index then
    c ← str_getitem (str self) index; Ret (Some c)
  else
    let idx := idx self - Z.abs index in
    if (len self <=? idx) || (idx <? 0) then Ret None
    else c ← str_getitem (str self) idx; Ret (Some c).

(** The [while] loop of [collect]. The body appends the current
    character to the accumulator and touches nothing else: [self.idx]
    is the same at the next test of the condition. *)
Fixpoint collect_loop (fuel : nat) (self : t) (pred : ascii → bool)
    (acc : string) : outcome string :=
  match fuel with
  | O => Diverge
  | S fuel =>
      c ← current self;
      match c with
      | Some ch =>
          if pred ch then collect_loop fuel self pred (acc +:+ String ch "")
          else Ret acc
      | None => Ret acc
      end
  end.

Definition collect (fuel : nat) (self : t) (pred : ascii → bool)
    : outcome string :=
  collect_loop fuel self pred "".

(** [pcollect] has no local [str]: the name in its [return] is the
    builtin class. Its loop body is [pass]. *)
Fixpoint pcollect (fuel : nat) (self : t) (pred : ascii → bool)
    : outcome value :=
  match fuel with
  | O => Diverge
  | S fuel =>
      c ← current self;
      match c with
      | Some ch =>
          if pred ch then pcollect fuel self pred
          else Ret (VClass "str")
      | None => Ret (VClass "str")
      end
  end.

End Reader.

(** ** [get_idx_by_pos] and the list operations of [add] *)

Definition get_idx_by_pos (len pos : Z) : Z :=
  if pos <? 0 then len + pos else pos.

Definition POS_APPEND_BACK : Z := 0xFFFFFFFF.

(** The range of a C [ssize_t], on a 64-bit build of CPython. *)
Definition PY_SSIZE_T_MAX : Z := 2 ^ 63 - 1.
Definition PY_SSIZE_T_MIN : Z := - 2 ^ 63.

(** [l.insert(i, x)]: the index is converted to a C [ssize_t] first,
    which raises [OverflowError] for an integer outside its range; then a
    negative index counts from the end, and an index beyond either end is
    clamped to that end. The list has room for one more element: running
    out of memory is not modelled. *)
Definition list_insert_at {A} (l : list A) (i : Z) (x : A)
    : outcome (list A) :=
  if (i <? PY_SSIZE_T_MIN) || (PY_SSIZE_T_MAX <? i) then
    Raise (OtherError "OverflowError"
             "Python int too large to convert to C ssize_t")
  else
    let n := Z.of_nat (length l) in
    let i := if i <? 0 then Z.max 0 (i + n) else i in
    let i := Z.to_nat (Z.min i n) in
    Ret (take i l ++ x :: drop i l).

(** [l[i]] on a list. *)
Definition list_getitem {A} (l : list A) (i : Z) : outcome A :=
  let n := Z.of_nat (length l) in
  let j := if i <? 0 then i + n else i in
  if (j <? 0) || (n <=? j) then Raise IndexError
  else match l !! Z.to_nat j with
       | Some a => Ret a
       | None => Raise IndexError
       end.

(** [d[k]] on a dictionary with string keys. *)
Definition dict_getitem {A} (d : gmap string A) (k : string) : outcome A :=
  match d !! k with
  | Some a => Ret a
  | None => Raise (KeyError k)
  end.

(** [s + e] where [s] is a [str] and [e] an exception object: [str] does
    not concatenate with anything but a [str]. *)
Definition str_add_exn (s : string) (e : exn) : outcome string :=
  Raise TypeError.

(** ** The heap of dictionary objects *)

Abbreviation loc := nat.
Abbreviation heap := (list (gmap string value)).

(** A computation that reads and writes the heap; the heap survives an
    exception. *)
Definition M (A : Type) : Type := heap → outcome A * heap.

Global Instance M_ret : MRet M := λ A a h, (Ret a, h).
Global Instance M_bind : MBind M := λ A B f m h,
  match m h with
  | (Ret a, h') => f a h'
  | (Raise e, h') => (Raise e, h')
  | (Diverge, h') => (Diverge, h')
  end.

Definition lift {A} (o : outcome A) : M A := λ h, (o, h).
Definition raise {A} (e : exn) : M A := λ h, (Raise e, h).
Definition diverge {A} : M A := λ h, (Diverge, h).

(** [{ }]: a new, empty dictionary object. *)
Definition dict_new : M loc := λ h, (Ret (length h), h ++ [∅]).

(** The contents of the object at [l]. *)
Definition dict_at (h : heap) (l : loc) : gmap string value :=
  default ∅ (h !! l).

(** [not out] for [out] being [None] or a dictionary: a dictionary is
    falsy exactly when it has no key. *)
Definition not_ (out : option loc) : M bool := λ h,
  match out with
  | None => (Ret true, h)
  | Some l => (Ret (bool_decide (dict_at h l = ∅)), h)
  end.

(** [out[k] = v]: the object at [out] is updated in place. *)
Definition dict_setitem (out : loc) (k : string) (v : value) : M unit :=
  λ h, (Ret tt, alter (<[k:=v]>) out h).

(** ** [class Arg], [class TypeParser] *)

(** A Python function object, by name. *)
Definition function := string.

Module TypeParser.
Record t := mk { ty : string; pfunc : function }.
End TypeParser.

Module Arg.

Record t := mk {
  name : string;
  char : option string;
  ty : TypeParser.t;
  sw_handler : option function;
  pos : option Z
}.

Definition new (name : string) (char : option string) (ty : TypeParser.t) : t :=
  mk name char ty None None.
Definition new_positional (name : string) (ty : TypeParser.t) : t :=
  mk name None ty None (Some POS_APPEND_BACK).
Definition new_positional_at (name : string) (ty : TypeParser.t) (pos : Z) : t :=
  mk name None ty None (Some pos).
Definition new_switch (name : string) (char : option string)
    (ty : TypeParser.t) (switch_handler : function) : t :=
  mk name char ty (Some switch_handler) None.

(** [not arg]: the class defines neither [__bool__] nor [__len__], so
    an instance is never falsy. *)
Definition not_ (arg : t) : bool := false.

End Arg.

(** ** [class ArgParser] *)

Module ArgParser.

Record t := mk {
  arg_map : gmap string Arg.t;
  pos_args : list Arg.t;
  by_char : gmap string Arg.t;
  types : gmap string TypeParser.t
}.

Definition init : t := mk ∅ [] ∅ ∅.

Definition define_type (self : t) (ty : TypeParser.t) : t :=
  mk (arg_map self) (pos_args self) (by_char self)
     (<[TypeParser.ty ty := ty]> (types self)).

(** [add] changes the engine in place and returns nothing: the model
    gives how the call ends and the engine as the call leaves it. The two
    tables are written before the positional list is touched, so they
    keep the declaration when the insertion raises. *)
Definition add (self : t) (arg : Arg.t) : outcome unit * t :=
  let self := mk (<[Arg.name arg := arg]> (arg_map self)) (pos_args self)
                 (by_char self) (types self) in
  let self :=
    match Arg.char arg with
    | Some c => mk (arg_map self) (pos_args self) (<[c := arg]> (by_char self))
                   (types self)
    | None => self
    end in
  match Arg.pos arg with
  | Some pos =>
      if pos =? POS_APPEND_BACK then
        (Ret tt, mk (arg_map self) (pos_args self ++ [arg]) (by_char self)
                    (types self))
      else
        match list_insert_at (pos_args self)
                (get_idx_by_pos (Z.of_nat (length (pos_args self))) pos) arg
        with
        | Ret l => (Ret tt, mk (arg_map self) l (by_char self) (types self))
        | Raise e => (Raise e, self)
        | Diverge => (Diverge, self)
        end
  | None => (Ret tt, self)
  end.

(** What calling a function object does. A switch handler is called
    with the engine and the declaration; a [pfunc] with the engine, the
    declaration and the reader, which it may leave at another index. *)
Record pyenv := {
  call_sw_handler : function → t → Arg.t → outcome value;
  call_pfunc : function → t → Arg.t → Reader.t → outcome (value * Reader.t)
}.

Section Parse.
Context (E : pyenv).

(** [TypeParser.parse] *)
Definition TypeParser_parse (ty : TypeParser.t) (parser : t) (arg : Arg.t)
    (reader : Reader.t) : outcome (value * Reader.t) :=
  call_pfunc E (TypeParser.pfunc ty) parser arg reader.

(** Only an [ArgError] enters the handler; the handler builds the
    message of its [print] first. *)
Definition parse_val (self : t) (arg : Arg.t) (reader : Reader.t)
    : outcome (value * Reader.t) :=
  match TypeParser_parse (Arg.ty arg) self arg reader with
  | Raise e =>
      if is_ArgError e then
        _ ← str_add_exn ("arg: error occured parsing " +:+ Arg.name arg +:+ ": ") e;
        Raise (ArgError "arg parse failed")
      else Raise e
  | r => r
  end.

(** The inner [while] of [parse], for a token that starts with one
    dash. It returns the reader as the loop leaves it. *)
Fixpoint parse_short (fuel : nat) (self : t) (out : loc) (reader : Reader.t)
    : M Reader.t :=
  match fuel with
  | O => diverge
  | S fuel =>
      c ← lift (Reader.current reader);
      match c with
      | None => mret reader
      | Some ch =>
          if ascii_eqb ch " " then mret reader
          else
            arg ← lift (dict_getitem (arg_map self) (String ch ""));
            _ ← (if Arg.not_ arg
                 then raise (ArgError ("unknown arg by char '" +:+ String ch "" +:+ "'"))
                 else mret tt);
            match Arg.sw_handler arg with
            | None =>
                '(_, reader) ← lift (Reader.next reader 1);
                '(val, reader) ← lift (parse_val self arg reader);
                _ ← dict_setitem out (Arg.name arg) val;
                mret reader
            | Some sw =>
                val ← lift (call_sw_handler E sw self arg);
                _ ← dict_setitem out (Arg.name arg) val;
                '(_, reader) ← lift (Reader.next reader 1);
                parse_short fuel self out reader
            end
      end
  end.

(** The outer [while] of [parse]. *)
Fixpoint parse_loop (fuel : nat) (self : t) (out : loc) (pIdx : Z)
    (reader : Reader.t) : M unit :=
  match fuel with
  | O => diverge
  | S fuel =>
      c0 ← lift (Reader.current reader);
      match c0 with
      | None => mret tt
      | Some _ =>
          _ ← lift (Reader.pcollect fuel reader isspace);
          c ← lift (Reader.current reader);
          if is_char c "-" then
            '(n, reader) ← lift (Reader.next reader 1);
            if is_char n "-" then
              '(_, reader) ← lift (Reader.next reader 1);
              name ← lift (Reader.collect fuel reader
                             (λ c, negb (ascii_eqb c " ") && negb (ascii_eqb c "=")));
              arg ← lift (dict_getitem (arg_map self) name);
              _ ← (if Arg.not_ arg
                   then raise (ArgError ("unknown arg by name " +:+ name))
                   else mret tt);
              c ← lift (Reader.current reader);
              '(val, reader) ←
                match Arg.sw_handler arg with
                | Some sw =>
                    if is_char c "=" then
                      '(_, reader) ← lift (Reader.next reader 1);
                      lift (parse_val self arg reader)
                    else
                      val ← lift (call_sw_handler E sw self arg);
                      mret (val, reader)
                | None =>
                    '(_, reader) ← lift (Reader.next reader 1);
                    lift (parse_val self arg reader)
                end;
              _ ← dict_setitem out (Arg.name arg) val;
              parse_loop fuel self out pIdx reader
            else
              reader ← parse_short fuel self out reader;
              parse_loop fuel self out pIdx reader
          else
            arg ← lift (list_getitem (pos_args self) pIdx);
            let pIdx := pIdx + 1 in
            '(val, reader) ← lift (parse_val self arg reader);
            _ ← dict_setitem out (Arg.name arg) val;
            parse_loop fuel self out pIdx reader
      end
  end.

(** [parse(str, out)]: [out] is [None] or a dictionary object. *)
Definition parse (fuel : nat) (self : t) (str : string) (out : option loc)
    : M loc :=
  falsy ← not_ out;
  out ← (if (falsy : bool) then dict_new
         else match out with
              | Some l => mret l
              | None => dict_new
              end);
  _ ← parse_loop fuel self out 0 (Reader.init str);
  mret out.

End Parse.

End ArgParser.

(** ** Collaborators used in the examples

    The engine is handed its switch handlers and value parsers by the
    build tool. These are the ones the examples below register. *)

Module Collab.

(** [lambda parser, arg: True] *)
Definition set_true : outcome value := Ret (VBool true).

(** A value parser that reads one decimal digit and steps over it with
    [reader.next()]. *)
Definition digit (reader : Reader.t) : outcome (value * Reader.t) :=
  c ← Reader.current reader;
  match c with
  | Some ch =>
      let n := Z.of_N (N_of_ascii ch) in
      if (48 <=? n) && (n <=? 57) then
        '(_, reader) ← Reader.next reader 1;
        Ret (VInt (n - 48), reader)
      else Raise (OtherError "ValueError" "not a digit")
  | None => Raise (OtherError "ValueError" "not a digit")
  end.

(** A value parser that reads up to the next whitespace, one
    [reader.next()] per character. *)
Fixpoint word_loop (n : nat) (reader : Reader.t) (acc : string)
    : outcome (value * Reader.t) :=
  match n with
  | O => Ret (VStr acc, reader)
  | S n =>
      c ← Reader.current reader;
      match c with
      | Some ch =>
          if isspace ch then Ret (VStr acc, reader)
          else
            '(_, reader) ← Reader.next reader 1;
            word_loop n reader (acc +:+ String ch "")
      | None => Ret (VStr acc, reader)
      end
  end.

Definition word (reader : Reader.t) : outcome (value * Reader.t) :=
  word_loop (String.length (Reader.str reader)) reader "".

Definition env : ArgParser.pyenv := {|
  ArgParser.call_sw_handler := λ f _ _,
    if bool_decide (f = "set_true") then set_true
    else Raise (OtherError "NameError" f);
  ArgParser.call_pfunc := λ f _ _ reader,
    if bool_decide (f = "digit") then digit reader
    else if bool_decide (f = "word") then word reader
    else if bool_decide (f = "reject") then Raise (ArgError "rejected")
    else Raise (OtherError "ValueError" f)
|}.

Definition t_int : TypeParser.t := TypeParser.mk "int" "digit".
Definition t_str : TypeParser.t := TypeParser.mk "str" "word".
Definition t_bad : TypeParser.t := TypeParser.mk "bad" "fail".
Definition t_reject : TypeParser.t := TypeParser.mk "reject" "reject".

Definition verbose : Arg.t :=
  Arg.new_switch "verbose" (Some "v") t_str "set_true".

(** One switch, [--verbose] / [-v]. *)
Definition engine_verbose : ArgParser.t :=
  (ArgParser.add ArgParser.init verbose).2.

(** Two positional integers, [x] then [y], both appended. *)
Definition engine_xy : ArgParser.t :=
  (ArgParser.add
     (ArgParser.add ArgParser.init (Arg.new_positional "x" t_int)).2
     (Arg.new_positional "y" t_int)).2.

(** One positional word. *)
Definition engine_w : ArgParser.t :=
  (ArgParser.add ArgParser.init (Arg.new_positional "w" t_str)).2.

(** One positional whose value parser fails with a [ValueError]. *)
Definition engine_bad : ArgParser.t :=
  (ArgParser.add ArgParser.init (Arg.new_positional "b" t_bad)).2.

(** Two declarations with the same name and the same short character. *)
Definition opt_int : Arg.t := Arg.new "opt" (Some "o") t_int.
Definition opt_str : Arg.t := Arg.new "opt" (Some "o") t_str.

(** Positional declarations: [b] and [c] appended, [a] at position 0,
    [z] at position -1. *)
Definition pos_a : Arg.t := Arg.new_positional_at "a" t_str 0.
Definition pos_b : Arg.t := Arg.new_positional "b" t_str.
Definition pos_c : Arg.t := Arg.new_positional "c" t_str.
Definition pos_z : Arg.t := Arg.new_positional_at "z" t_str (-1).

End Collab.

(** ** [is_path_sep], [fix_path] *)

Definition is_path_sep (char : ascii) : bool :=
  ascii_eqb char "\" || ascii_eqb char "/".

(** [s[start:stop]] on a [str]: a negative bound counts from the end,
    and both bounds are clamped to the text. *)
Definition str_slice (s : string) (start stop : Z) : string :=
  let n := Z.of_nat (String.length s) in
  let clamp := λ i : Z, if i <? 0 then Z.max 0 (i + n) else Z.min i n in
  let a := clamp start in
  let b := clamp stop in
  if b <=? a then ""
  else String.substring (Z.to_nat a) (Z.to_nat (b - a)) s.

(** The [while] loop of [fix_path]. [environ] is the environment that
    [os.getenv] reads; an entry of [segments] is a [str] or [None], as
    [os.getenv] returns [None] for a variable that is not set. *)
Fixpoint fix_path_loop (environ : gmap string string) (fuel : nat)
    (seg : string) (segments : list (option string)) (reader : Reader.t)
    (char : option ascii) : outcome (list (option string)) :=
  match fuel with
  | O => Diverge
  | S fuel =>
      match char with
      | None => Ret segments
      | Some ch =>
          '(seg, segments) ←
            (if is_path_sep ch then
               is_var ← (if 2 <? Z.of_nat (String.length seg) then
                           c0 ← str_getitem seg 0;
                           Ret (ascii_eqb c0 "%")
                         else Ret false);
               let seg := if (is_var : bool)
                          then environ !! str_slice seg 1 (-1)
                          else Some seg in
               Ret ("", segments ++ [seg])
             else Ret (seg +:+ String ch "", segments));
          '(char, reader) ← Reader.next reader 1;
          fix_path_loop environ fuel seg segments reader char
      end
  end.

(** The [for] loop of [fix_path]: [None + "/"] is a [TypeError]. *)
Fixpoint fix_path_stitch (segments : list (option string)) (result : string)
    : outcome string :=
  match segments with
  | [] => Ret result
  | segment :: segments =>
      match segment with
      | Some s => fix_path_stitch segments (result +:+ (s +:+ "/"))
      | None => Raise TypeError
      end
  end.

Definition fix_path (environ : gmap string string) (fuel : nat)
    (pstr : string) : outcome string :=
  let reader := Reader.init pstr in
  char ← Reader.current reader;
  segments ← fix_path_loop environ fuel "" [] reader char;
  fix_path_stitch segments "".

(** ** [BuildTarget], [BuildState], [get_platform_str],
    [get_output_file_name] *)

Module BuildTarget.
Record t := mk { name : string; type : string; src_dir : string }.
End BuildTarget.

Module BuildState.

(** [obj_dir], [bin_dir] and [target] exist once their setter has been
    called. *)
Record t := mk {
  include_dirs : list string;
  lib_dirs : list string;
  dependencies : list string;
  obj_dir : option string;
  bin_dir : option string;
  target : option BuildTarget.t
}.

Definition init : t := mk [] [] [] None None None.

End BuildState.

(** [c.lower()] on a character below code point 256: the capital
    letters of ASCII and of Latin-1 are 32 below their small letters. *)
Definition char_lower (c : ascii) : ascii :=
  let n := N_of_ascii c in
  if ((65 <=? n) && (n <=? 90) || (192 <=? n) && (n <=? 214)
      || (216 <=? n) && (n <=? 222))%N
  then ascii_of_N (n + 32)
  else c.

(** [s.lower()] *)
Fixpoint str_lower (s : string) : string :=
  match s with
  | EmptyString => EmptyString
  | String c s => String (char_lower c) (str_lower s)
  end.

(** [s.find(sub)]: the first index at which [sub] occurs in [s], or -1. *)
Definition str_find (s sub : string) : Z :=
  match String.index 0 sub s with
  | Some n => Z.of_nat n
  | None => -1
  end.

(** [s.startswith(prefix)] *)
Definition str_startswith (s prefix : string) : bool := String.prefix prefix s.

(** [s.split(sep)] for a separator of one character: the pieces between
    the separators, at least one piece. *)
Fixpoint str_split_loop (sep : ascii) (s cur : string) : list string :=
  match s with
  | EmptyString => [cur]
  | String c s =>
      if ascii_eqb c sep then cur :: str_split_loop sep s ""
      else str_split_loop sep s (cur +:+ String c "")
  end.

Definition str_split (s : string) (sep : ascii) : list string :=
  str_split_loop sep s "".

Definition get_platform_str (osName : option string) (arch : string) : string :=
  arch +:+ match osName with
           | Some os => "-" +:+ os
           | None => ""
           end.

(** [osName.lower()]: [None] has no method [lower]. *)
Definition osName_lower (osName : option string) : outcome string :=
  match osName with
  | Some os => Ret (str_lower os)
  | None =>
      Raise (OtherError "AttributeError"
               "'NoneType' object has no attribute 'lower'")
  end.

(** The message of the [ValueError] is the format text: the text that
    Python puts for the target object is not modelled. *)
Definition get_output_file_name (state : BuildState.t) (target : BuildTarget.t)
    (osName : option string) (arch : string) : outcome string :=
  ext ←
    (if bool_decide (BuildTarget.type target = "executable") then
       os ← osName_lower osName;
       if negb (str_find os "win" =? -1) then Ret ".exe" else Ret ""
     else if str_startswith (BuildTarget.type target) "lib" then
       let spl := str_split (BuildTarget.type target) ":" in
       if Z.of_nat (length spl) <? 2 then
         Raise (OtherError "ValueError" "Invalid target type: %s")
       else
         spec ← list_getitem spl 1;
         if bool_decide (spec = "static") then
           os ← osName_lower osName;
           if negb (str_find os "linux" =? -1) then Ret ".a" else Ret ".lib"
         else if bool_decide (spec = "dynamic") then
           os ← osName_lower osName;
           if negb (str_find os "win" =? -1) then Ret ".dll"
           else
             os ← osName_lower osName;
             if negb (str_find os "linux" =? -1) then Ret ".so"
             else Ret ".dylib"
         else Ret ""
     else Ret "");
  Ret (BuildTarget.name target +:+ "-" +:+ get_platform_str osName arch +:+ ext).

(** ** More collaborators for the examples *)

Module Fixtures.

(** A switch whose name is one letter and whose short character is
    another one. *)
Definition quiet : Arg.t :=
  Arg.new_switch "q" (Some "z") Collab.t_str "set_true".

Definition engine_quiet : ArgParser.t :=
  (ArgParser.add ArgParser.init quiet).2.

(** A named declaration and a type parser, for the registration
    examples. *)
Definition level : Arg.t := Arg.new "level" (Some "l") Collab.t_int.

(** Positional declarations: [d] appended, [e] at position -4, [far] at
    a position that is not a C [ssize_t]. *)
Definition pos_d : Arg.t := Arg.new_positional "d" Collab.t_str.
Definition pos_e : Arg.t := Arg.new_positional_at "e" Collab.t_str (-4).
Definition pos_far : Arg.t :=
  Arg.new_positional_at "far" Collab.t_str (2 ^ 63).

(** Two positionals: an integer [x], then [b], whose value parser fails
    with a [ValueError]. *)
Definition engine_x_bad : ArgParser.t :=
  (ArgParser.add
     (ArgParser.add ArgParser.init (Arg.new_positional "x" Collab.t_int)).2
     (Arg.new_positional "b" Collab.t_bad)).2.

(** One value-taking declaration [n] whose value parser fails with a
    [ValueError]. *)
Definition engine_n_bad : ArgParser.t :=
  (ArgParser.add ArgParser.init (Arg.new "n" None Collab.t_bad)).2.

End Fixtures.

(** ** Vocabulary of the statements *)

(** The character of [s] at [i], or [None] outside [0, len). *)
Definition char_at (s : string) (i : Z) : option ascii :=
  if (i <? 0) || (Z.of_nat (String.length s) <=? i) then None
  else String.get (Z.to_nat i) s.

(** [not out] holds: [out] is [None] or an empty dictionary. *)
Definition falsy (h : heap) (out : option loc) : Prop :=
  match out with
  | None => True
  | Some l => h !! l = Some ∅
  end.

(** A computation that is handed the location [o] of a dictionary
    [writes_only] to that dictionary when its outcome and the keys it
    stores depend neither on [o], nor on the rest of the heap, nor on what
    the dictionary held: it returns [res] and leaves [W ∪ d] at [o]. *)
Definition writes_only {A} (m : loc → M A) : Prop :=
  ∃ (res : outcome A) (W : gmap string value),
    ∀ (o : loc) (h : heap) (d : gmap string value),
      h !! o = Some d → m o h = (res, <[o := W ∪ d]> h).

(** The declarations registered with the append marker, as they stand in
    a positional list. *)
Definition appended (l : list Arg.t) : list Arg.t :=
  filter (λ a, Arg.pos a = Some POS_APPEND_BACK) l.

(** [o2] is the outcome [o1] unless [o1] ran out of fuel; [m2] does what
    [m1] does unless [m1] ran out of fuel. *)
Definition outcome_le {A} (o1 o2 : outcome A) : Prop :=
  o1 ≠ Diverge → o2 = o1.

Definition refines {A} (m1 m2 : M A) : Prop :=
  ∀ (h : heap) (r : outcome A) (h' : heap),
    m1 h = (r, h') → r ≠ Diverge → m2 h = (r, h').

(** [k] is the name of a declaration that the engine holds, in its
    by-name table or in its positional list. *)
Definition declared (self : ArgParser.t) (k : string) : Prop :=
  ∃ arg : Arg.t,
    Arg.name arg = k
    ∧ ((∃ key : string, ArgParser.arg_map self !! key = Some arg)
       ∨ arg ∈ ArgParser.pos_args self).

(** [writes_only] with a bound on the keys that are stored. *)
Definition writes_within (P : string → Prop) {A} (m : loc → M A) : Prop :=
  ∃ (res : outcome A) (W : gmap string value),
    (∀ k : string, is_Some (W !! k) → P k)
    ∧ ∀ (o : loc) (h : heap) (d : gmap string value),
        h !! o = Some d → m o h = (res, <[o := W ∪ d]> h).

(** Every character of [s] passes the test [P]. *)
Fixpoint all_chars (P : ascii → bool) (s : string) : bool :=
  match s with
  | EmptyString => true
  | String c s => P c && all_chars P s
  end.

(** [s] has no path separator; [s] has no percent sign. *)
Definition sep_free (s : string) : Prop :=
  all_chars (λ c, negb (is_path_sep c)) s = true.

Definition percent_free (s : string) : Prop :=
  all_chars (λ c, negb (ascii_eqb c "%")) s = true.

(** [s] with each path separator replaced by a slash. *)
Fixpoint to_slashes (s : string) : string :=
  match s with
  | EmptyString => EmptyString
  | String c s => String (if is_path_sep c then "/"%char else c) (to_slashes s)
  end.

(** [s] is empty or ends with a path separator: what follows [s] in a
    path starts a segment. *)
Definition segment_start (s : string) : Prop :=
  s = "" ∨ ∃ (q : string) (c : ascii), is_path_sep c = true ∧ s = q +:+ String c "".

(** What a segment becomes when its separator is met: the value of the
    variable for a segment of more than two characters that starts with a
    percent sign, the segment itself otherwise. *)
Definition expand_segment (environ : gmap string string) (seg : string)
    : option string :=
  if (2 <? Z.of_nat (String.length seg))
     && match seg with
        | String c _ => ascii_eqb c "%"
        | EmptyString => false
        end
  then environ !! str_slice seg 1 (-1)
  else Some seg.

(** The segments of the text [rest] that comes after the unfinished
    segment [seg], one for each separator of [rest]. *)
Fixpoint path_segments (environ : gmap string string) (rest seg : string)
    : list (option string) :=
  match rest with
  | EmptyString => []
  | String c rest =>
      if is_path_sep c
      then expand_segment environ seg :: path_segments environ rest ""
      else path_segments environ rest (seg +:+ String c "")
  end.

(** Two computations do the same in every heap. *)
Definition same_run {A} (m1 m2 : M A) : Prop := ∀ h : heap, m1 h = m2 h.

(** In every heap, [m'] does what [m] does or raises [e]. *)
Definition same_or_raises {A} (e : exn) (m' m : M A) : Prop :=
  ∀ h : heap, m' h = m h ∨ ∃ h' : heap, m' h = (Raise e, h').

(** * Properties *)

(** ** The cursor *)

Lemma string_get_lt (s : string) (n : nat) :
  (n < String.length s)%nat → ∃ c, String.get n s = Some c.
Proof.
  revert n. induction s as [|a s IH]; intros n Hn; simpl in Hn; [lia|].
  destruct n as [|n]; simpl; [by eexists|]. apply IH. lia.
Qed.

Lemma str_getitem_in_range (s : string) (i : Z) :
  0 ≤ i < Z.of_nat (String.length s) →
  ∃ c, str_getitem s i = Ret c ∧ String.get (Z.to_nat i) s = Some c.
Proof.
  intros Hi. unfold str_getitem. cbv zeta.
  assert ((i <? 0) = false) as Hlo by lia.
  rewrite Hlo. cbv iota. rewrite Hlo.
  rewrite (proj2 (Z.leb_gt _ i)) by lia. simpl.
  destruct (string_get_lt s (Z.to_nat i)) as [c Hc]; [lia|].
  rewrite Hc. by exists c.
Qed.

Lemma str_getitem_beyond (s : string) (i : Z) :
  Z.of_nat (String.length s) ≤ i → str_getitem s i = Raise IndexError.
Proof.
  intros Hi. unfold str_getitem. cbv zeta.
  assert ((i <? 0) = false) as Hlo by lia.
  rewrite Hlo. cbv iota. rewrite Hlo.
  by rewrite (proj2 (Z.leb_le _ i)) by lia.
Qed.

(** A bounds-checked read never raises. *)
Lemma checked_read (s : string) (i : Z) :
  (if (i <? 0) || (Z.of_nat (String.length s) <=? i) then Ret None
   else c ← str_getitem s i; Ret (Some c)) = Ret (char_at s i).
Proof.
  unfold char_at.
  destruct ((i <? 0) || (Z.of_nat (String.length s) <=? i)) eqn:Hb; [done|].
  apply orb_false_elim in Hb as [Hlo Hhi].
  apply Z.ltb_ge in Hlo. apply Z.leb_gt in Hhi.
  destruct (str_getitem_in_range s i) as (c & -> & ->); [lia|]. done.
Qed.

Lemma checked_read' (s : string) (i : Z) :
  (if (Z.of_nat (String.length s) <=? i) || (i <? 0) then Ret None
   else c ← str_getitem s i; Ret (Some c)) = Ret (char_at s i).
Proof. rewrite orb_comm. apply checked_read. Qed.

Lemma current_total (self : Reader.t) :
  Reader.current self = Ret (char_at (Reader.str self) (Reader.idx self)).
Proof. apply checked_read. Qed.

Lemma next_total (self : Reader.t) (amt : Z) :
  Reader.next self amt =
  Ret (char_at (Reader.str self) (Reader.idx self + amt),
       Reader.mk (Reader.str self) (Reader.idx self + amt)).
Proof.
  unfold Reader.next, Reader.len. simpl.
  pose proof (checked_read (Reader.str self) (Reader.idx self + amt)) as H.
  destruct ((_ <? 0) || _); [by injection H as <-|].
  destruct (str_getitem _ _); simpl in *; by try injection H as <-.
Qed.

Lemma prev_total (self : Reader.t) (amt : Z) :
  Reader.prev self amt =
  Ret (char_at (Reader.str self) (Reader.idx self - amt),
       Reader.mk (Reader.str self) (Reader.idx self - amt)).
Proof.
  unfold Reader.prev, Reader.len. simpl.
  pose proof (checked_read (Reader.str self) (Reader.idx self - amt)) as H.
  destruct ((_ <? 0) || _); [by injection H as <-|].
  destruct (str_getitem _ _); simpl in *; by try injection H as <-.
Qed.

Lemma peek_total (self : Reader.t) (off : Z) :
  Reader.peek self off =
  Ret (char_at (Reader.str self) (Reader.idx self + off)).
Proof. apply checked_read'. Qed.

Lemma at_relative (self : Reader.t) (index : Z) :
  index ≤ 0 →
  Reader.at_ self index =
  Ret (char_at (Reader.str self) (Reader.idx self - Z.abs index)).
Proof.
  intros Hi. unfold Reader.at_.
  destruct (Z.ltb_spec 0 index); [lia|]. apply checked_read'.
Qed.

Lemma at_absolute_inside (self : Reader.t) (index : Z) :
  0 < index < Reader.len self →
  Reader.at_ self index = Ret (char_at (Reader.str self) index).
Proof.
  intros Hi. unfold Reader.at_.
  destruct (Z.ltb_spec 0 index); [|lia].
  rewrite <- checked_read. unfold Reader.len in Hi.
  destruct (Z.ltb_spec index 0); [lia|].
  by destruct (Z.leb_spec (Z.of_nat (String.length (Reader.str self))) index); [lia|].
Qed.

Lemma at_absolute_beyond (self : Reader.t) (index : Z) :
  0 < index → Reader.len self ≤ index →
  Reader.at_ self index = Raise IndexError.
Proof.
  intros Hpos Hlen. unfold Reader.at_.
  destruct (Z.ltb_spec 0 index); [|lia].
  by rewrite str_getitem_beyond.
Qed.

Lemma char_at_outside (s : string) (i : Z) :
  i < 0 ∨ Z.of_nat (String.length s) ≤ i → char_at s i = None.
Proof.
  intros Hi. unfold char_at.
  destruct (Z.ltb_spec i 0); [done|].
  destruct (Z.leb_spec (Z.of_nat (String.length s)) i); [done|lia].
Qed.

Lemma char_at_inside (s : string) (i : Z) :
  0 ≤ i < Z.of_nat (String.length s) → is_Some (char_at s i).
Proof.
  intros Hi. destruct (str_getitem_in_range s i) as (c & _ & Hc); [done|].
  unfold char_at.
  destruct (Z.ltb_spec i 0); [lia|].
  destruct (Z.leb_spec (Z.of_nat (String.length s)) i); [lia|].
  simpl. by rewrite Hc.
Qed.

(** A loop of [collect] or [pcollect] whose condition holds once holds
    for ever, whatever the fuel. *)
Lemma collect_loop_stuck (fuel : nat) (self : Reader.t) (pred : ascii → bool)
    (acc : string) (ch : ascii) :
  char_at (Reader.str self) (Reader.idx self) = Some ch →
  pred ch = true →
  Reader.collect_loop fuel self pred acc = Diverge.
Proof.
  intros Hc Hp. revert acc.
  induction fuel as [|fuel IH]; intros acc; [done|].
  simpl. rewrite current_total, Hc. simpl. rewrite Hp. apply IH.
Qed.

Lemma pcollect_stuck (fuel : nat) (self : Reader.t) (pred : ascii → bool)
    (ch : ascii) :
  char_at (Reader.str self) (Reader.idx self) = Some ch →
  pred ch = true →
  Reader.pcollect fuel self pred = Diverge.
Proof.
  intros Hc Hp. induction fuel as [|fuel IH]; [done|].
  simpl. rewrite current_total, Hc. simpl. by rewrite Hp.
Qed.

(** When the condition fails at once, the loops return without having
    moved: [collect] the empty text, [pcollect] the class [str]. *)
Lemma collect_stops (fuel : nat) (self : Reader.t) (pred : ascii → bool) :
  match char_at (Reader.str self) (Reader.idx self) with
  | Some ch => pred ch = false
  | None => True
  end →
  Reader.collect (S fuel) self pred = Ret "".
Proof.
  intros Hc. unfold Reader.collect. simpl. rewrite current_total.
  destruct (char_at _ _); simpl; [by rewrite Hc|done].
Qed.

Lemma pcollect_stops (fuel : nat) (self : Reader.t) (pred : ascii → bool) :
  match char_at (Reader.str self) (Reader.idx self) with
  | Some ch => pred ch = false
  | None => True
  end →
  Reader.pcollect (S fuel) self pred = Ret (VClass "str").
Proof.
  intros Hc. simpl. rewrite current_total.
  destruct (char_at _ _); simpl; [by rewrite Hc|done].
Qed.

(** C3. The claim is that [collect] and [pcollect] terminate for every
    input and predicate because a matching iteration advances the cursor.
    They do not: on the text [a] with a predicate that accepts every
    character neither loop returns, however much fuel it is given, and
    the cursor is where it was. *)
Theorem collect_pcollect_do_not_advance :
  ∀ fuel : nat,
    Reader.collect fuel (Reader.init "a") (λ _, true) = Diverge
    ∧ Reader.pcollect fuel (Reader.init "a") (λ _, true) = Diverge.
Proof.
  intros fuel. split.
  - by apply collect_loop_stuck with (ch := "a"%char).
  - by apply pcollect_stuck with (ch := "a"%char).
Qed.

(** C4. The claim is that every accessor returns [None] for an index
    outside the text. [current], [next], [prev], [peek] and the relative
    branch of [at] do ([current_total], [next_total], [prev_total],
    [peek_total], [at_relative]); the absolute branch of [at] indexes the
    text without a check and raises [IndexError]. *)
Theorem at_positive_index_raises :
  Reader.at_ (Reader.init "ab") 2 = Raise IndexError
  ∧ Reader.at_ (Reader.init "ab") 7 = Raise IndexError
  ∧ Reader.at_ (Reader.init "") 1 = Raise IndexError
  ∧ Reader.peek (Reader.init "ab") 2 = Ret None.
Proof. done. Qed.

(** ** The heap monad *)

Lemma bind_lift_ret {A B} (a : A) (k : A → M B) (h : heap) :
  (lift (Ret a) ≫= k) h = k a h.
Proof. done. Qed.

Lemma bind_lift_raise {A B} (e : exn) (k : A → M B) (h : heap) :
  (lift (Raise e) ≫= k) h = (Raise e, h).
Proof. done. Qed.

Lemma bind_lift_diverge {A B} (k : A → M B) (h : heap) :
  (lift Diverge ≫= k) h = (Diverge, h).
Proof. done. Qed.

(** ** [parse]: the loops that do not return *)

(** Whitespace at the head of the outer loop is never skipped: [pcollect]
    is entered with a matching character. *)
Lemma parse_loop_at_space (E : ArgParser.pyenv) (fuel : nat) (self : ArgParser.t)
    (out : loc) (pIdx : Z) (reader : Reader.t) (h : heap) (ch : ascii) :
  char_at (Reader.str reader) (Reader.idx reader) = Some ch →
  isspace ch = true →
  ArgParser.parse_loop E fuel self out pIdx reader h = (Diverge, h).
Proof.
  intros Hc Hsp. destruct fuel as [|fuel]; [done|].
  cbn [ArgParser.parse_loop].
  rewrite current_total, Hc, bind_lift_ret.
  by rewrite (pcollect_stuck fuel reader isspace ch).
Qed.

(** A long-form token with a name of at least one character: [collect]
    is entered with a matching character. *)
Lemma parse_loop_long_name (E : ArgParser.pyenv) (fuel : nat) (self : ArgParser.t)
    (out : loc) (pIdx : Z) (s : string) (h : heap) (ch : ascii) :
  char_at s 0 = Some "-"%char →
  char_at s 1 = Some "-"%char →
  char_at s 2 = Some ch →
  ch ≠ " "%char → ch ≠ "="%char →
  ArgParser.parse_loop E fuel self out pIdx (Reader.init s) h = (Diverge, h).
Proof.
  intros H0 H1 H2 Hsp Heq. destruct fuel as [|fuel]; [done|].
  cbn [ArgParser.parse_loop].
  rewrite current_total. simpl Reader.str. simpl Reader.idx.
  rewrite H0, bind_lift_ret.
  destruct fuel as [|fuel]; [done|].
  rewrite pcollect_stops by (simpl; by rewrite H0).
  rewrite bind_lift_ret, bind_lift_ret.
  change (is_char (Some "-"%char) "-") with true. cbv iota.
  rewrite next_total. simpl Reader.str. simpl Reader.idx.
  change (0 + 1) with 1.
  rewrite bind_lift_ret, H1.
  change (is_char (Some "-"%char) "-") with true. cbv iota beta.
  rewrite next_total. simpl Reader.str. simpl Reader.idx.
  change (1 + 1) with 2.
  rewrite bind_lift_ret. cbv iota beta.
  unfold Reader.collect.
  rewrite (collect_loop_stuck (S fuel) _ _ "" ch); [done|done|].
  unfold ascii_eqb. by rewrite !bool_decide_eq_false_2.
Qed.

(** C1. The claim is that a short alias is resolved through the by-char
    table, so that [-v] yields [verbose]. [add] does fill [by_char], but
    the short-form loop of [parse] indexes [arg_map] with the character:
    with the switch [verbose] / [v] registered, [parse] of [-v] into
    an empty dictionary raises [KeyError] for the key [v], and the
    mapping it created stays empty. *)
Theorem short_alias_looked_up_by_name :
  ArgParser.by_char Collab.engine_verbose !! "v" = Some Collab.verbose
  ∧ ArgParser.arg_map Collab.engine_verbose !! "v" = None
  ∧ ∀ (E : ArgParser.pyenv) (fuel : nat),
      ArgParser.parse E (S (S fuel)) Collab.engine_verbose "-v" (Some 0%nat) [∅]
      = (Raise (KeyError "v"), [∅; ∅]).
Proof.
  split; [by vm_compute|]. split; [by vm_compute|].
  intros E fuel. vm_compute. reflexivity.
Qed.

(** C2. The claim is that an unknown long name makes [parse] fail with
    the engine's own error. For [--missing=1] the name is never read:
    [collect] does not advance, whatever the engine holds. For the token
    [--], whose name is empty, the lookup [arg_map[name]] raises
    [KeyError] before the test that would raise [ArgError]. *)
Theorem unknown_long_name_no_ArgError :
  (∀ (E : ArgParser.pyenv) (fuel : nat) (self : ArgParser.t) (out : option loc)
     (h : heap),
     (ArgParser.parse E fuel self "--missing=1" out h).1 = Diverge)
  ∧ (∀ (E : ArgParser.pyenv) (fuel : nat),
       ArgParser.parse E (S (S fuel)) ArgParser.init "--" (Some 0%nat) [∅]
       = (Raise (KeyError ""), [∅; ∅])).
Proof.
  split.
  - intros E fuel self out h. unfold ArgParser.parse.
    assert (∀ o h', (_ ← ArgParser.parse_loop E fuel self o 0
                           (Reader.init "--missing=1"); mret o) h'
                    = (Diverge, h')) as Hloop.
    { intros o h'. unfold mbind, M_bind.
      by rewrite (parse_loop_long_name E fuel self o 0 _ h' "m"). }
    destruct out as [l|]; simpl.
    + unfold mbind, M_bind in *. simpl.
      destruct (bool_decide _); simpl; by rewrite Hloop.
    + unfold mbind, M_bind in *. simpl. by rewrite Hloop.
  - intros E fuel. vm_compute. reflexivity.
Qed.

(** ** [parse]: what it does to the heap *)


Lemma writes_only_lift {A} (x : outcome A) : writes_only (λ _, lift x).
Proof.
  exists x, ∅. intros o h d Hd. unfold lift.
  by rewrite (left_id_L ∅ (∪)), list_insert_id.
Qed.

Lemma writes_only_ret {A} (a : A) : writes_only (λ _, mret a).
Proof. apply (writes_only_lift (Ret a)). Qed.

Lemma writes_only_raise {A} (e : exn) : writes_only (λ _, @raise A e).
Proof. apply (writes_only_lift (Raise e)). Qed.

Lemma writes_only_diverge {A} : writes_only (λ _, @diverge A).
Proof. apply (writes_only_lift Diverge). Qed.

Lemma writes_only_setitem (k : string) (v : value) :
  writes_only (λ o, dict_setitem o k v).
Proof.
  exists (Ret tt), {[k := v]}. intros o h d Hd. unfold dict_setitem.
  rewrite <- insert_union_singleton_l. f_equal.
  apply list_eq. intros i. rewrite list_lookup_alter, list_lookup_insert.
  case_decide; subst.
  - rewrite Hd. simpl. rewrite decide_True; [done|].
    split; [done|]. by eapply lookup_lt_Some.
  - rewrite decide_False; [done|]. intros [? _]. done.
Qed.

Lemma writes_only_bind {A B} (m : loc → M A) (k : loc → A → M B) :
  writes_only m →
  (∀ a, writes_only (λ o, k o a)) →
  writes_only (λ o, m o ≫= k o).
Proof.
  intros (res & W & Hm) Hk. destruct res as [a|e|].
  - destruct (Hk a) as (res' & W' & Hka).
    exists res', (W' ∪ W). intros o h d Hd.
    unfold mbind, M_bind. rewrite (Hm o h d Hd).
    rewrite (Hka o _ (W ∪ d)).
    + by rewrite list_insert_insert_eq, (assoc_L (∪)).
    + apply list_lookup_insert_eq. by eapply lookup_lt_Some.
  - exists (Raise e), W. intros o h d Hd.
    unfold mbind, M_bind. by rewrite (Hm o h d Hd).
  - exists Diverge, W. intros o h d Hd.
    unfold mbind, M_bind. by rewrite (Hm o h d Hd).
Qed.

(** Takes a loop body apart along its binds and branches. *)
Ltac writes_only_step :=
  first
    [ apply writes_only_lift
    | apply writes_only_ret
    | apply writes_only_raise
    | apply writes_only_diverge
    | apply writes_only_setitem
    | apply writes_only_bind; [|intros ?]
    | match goal with
      | |- writes_only (λ _, match ?x with _ => _ end) => destruct x
      end ].

Lemma parse_short_writes (E : ArgParser.pyenv) (fuel : nat) (self : ArgParser.t)
    (reader : Reader.t) :
  writes_only (λ out, ArgParser.parse_short E fuel self out reader).
Proof.
  revert reader. induction fuel as [|fuel IH]; intros reader.
  - apply writes_only_diverge.
  - cbn [ArgParser.parse_short]. repeat writes_only_step; apply IH.
Qed.

Lemma parse_loop_writes (E : ArgParser.pyenv) (fuel : nat) (self : ArgParser.t)
    (pIdx : Z) (reader : Reader.t) :
  writes_only (λ out, ArgParser.parse_loop E fuel self out pIdx reader).
Proof.
  revert pIdx reader. induction fuel as [|fuel IH]; intros pIdx reader.
  - apply writes_only_diverge.
  - cbn [ArgParser.parse_loop].
    repeat writes_only_step; first [apply IH | apply parse_short_writes].
Qed.


Lemma not_falsy (h : heap) (out : option loc) :
  falsy h out → not_ out h = (Ret true, h).
Proof.
  destruct out as [l|]; simpl; [|done].
  intros Hl. unfold dict_at. rewrite Hl. simpl.
  by rewrite bool_decide_eq_true_2.
Qed.

Lemma not_truthy (h : heap) (l : loc) (d : gmap string value) :
  h !! l = Some d → d ≠ ∅ → not_ (Some l) h = (Ret false, h).
Proof.
  intros Hl Hd. simpl. unfold dict_at. rewrite Hl. simpl.
  by rewrite bool_decide_eq_false_2.
Qed.

(** One outcome [res] and one set of stored keys [W] describe every call
    of [parse] on a given text: into a new object when [out] is falsy,
    into the caller's object otherwise. *)
Lemma parse_shape (E : ArgParser.pyenv) (fuel : nat) (self : ArgParser.t)
    (str : string) :
  ∃ (res : outcome unit) (W : gmap string value),
    (∀ (h : heap) (out : option loc),
       falsy h out →
       ArgParser.parse E fuel self str out h
       = (_ ← res; Ret (length h), h ++ [W]))
    ∧ (∀ (h : heap) (l : loc) (d : gmap string value),
         h !! l = Some d → d ≠ ∅ →
         ArgParser.parse E fuel self str (Some l) h
         = (_ ← res; Ret l, <[l := W ∪ d]> h)).
Proof.
  destruct (parse_loop_writes E fuel self 0 (Reader.init str))
    as (res & W & Hloop).
  exists res, W. split.
  - intros h out Hf. unfold ArgParser.parse.
    unfold mbind at 1. unfold M_bind at 1. rewrite (not_falsy h out Hf).
    unfold mbind at 1. unfold M_bind at 1. unfold dict_new.
    unfold mbind at 1. unfold M_bind at 1.
    rewrite (Hloop (length h) (h ++ [∅]) ∅) by by apply list_lookup_middle.
    rewrite (right_id_L ∅ (∪)).
    rewrite insert_app_r_alt, Nat.sub_diag by done.
    by destruct res.
  - intros h l d Hl Hd. unfold ArgParser.parse.
    unfold mbind at 1. unfold M_bind at 1. rewrite (not_truthy h l d Hl Hd).
    unfold mbind at 1. unfold M_bind at 1. unfold mret at 1. unfold M_ret at 1.
    unfold mbind at 1. unfold M_bind at 1.
    rewrite (Hloop l h d Hl).
    by destruct res.
Qed.

(** [parse_shape], for an outcome and a mapping that describe the outer
    loop. *)
Lemma parse_shape_of_loop (E : ArgParser.pyenv) (fuel : nat)
    (self : ArgParser.t) (str : string) (res : outcome unit)
    (W : gmap string value) :
  (∀ (o : loc) (h : heap) (d : gmap string value),
     h !! o = Some d →
     ArgParser.parse_loop E fuel self o 0 (Reader.init str) h
     = (res, <[o := W ∪ d]> h)) →
  (∀ (h : heap) (out : option loc),
     falsy h out →
     ArgParser.parse E fuel self str out h
     = (_ ← res; Ret (length h), h ++ [W]))
  ∧ (∀ (h : heap) (l : loc) (d : gmap string value),
       h !! l = Some d → d ≠ ∅ →
       ArgParser.parse E fuel self str (Some l) h
       = (_ ← res; Ret l, <[l := W ∪ d]> h)).
Proof.
  intros Hloop. split.
  - intros h out Hf. unfold ArgParser.parse.
    unfold mbind at 1. unfold M_bind at 1. rewrite (not_falsy h out Hf).
    unfold mbind at 1. unfold M_bind at 1. unfold dict_new.
    unfold mbind at 1. unfold M_bind at 1.
    rewrite (Hloop (length h) (h ++ [∅]) ∅) by by apply list_lookup_middle.
    rewrite (right_id_L ∅ (∪)).
    rewrite insert_app_r_alt, Nat.sub_diag by done.
    by destruct res.
  - intros h l d Hl Hd. unfold ArgParser.parse.
    unfold mbind at 1. unfold M_bind at 1. rewrite (not_truthy h l d Hl Hd).
    unfold mbind at 1. unfold M_bind at 1. unfold mret at 1. unfold M_ret at 1.
    unfold mbind at 1. unfold M_bind at 1.
    rewrite (Hloop l h d Hl).
    by destruct res.
Qed.

(** What [parse] does in any heap is what it does in the empty one. *)
Lemma parse_from_empty_heap (E : ArgParser.pyenv) (fuel : nat)
    (self : ArgParser.t) (str : string) (res0 : outcome loc)
    (W : gmap string value) (h : heap) (out : option loc) :
  ArgParser.parse E fuel self str None [] = (res0, [W]) →
  falsy h out →
  ArgParser.parse E fuel self str out h
  = (_ ← res0; Ret (length h), h ++ [W]).
Proof.
  intros H0 Hf.
  destruct (parse_shape E fuel self str) as (res & W' & Hshape & _).
  rewrite (Hshape [] None I) in H0. injection H0 as <- <-.
  rewrite (Hshape h out Hf). by destruct res.
Qed.

(** C5. The claim is that a bare token beyond the last positional
    declaration makes [parse] fail with the engine's own error. The
    positional branch indexes [pos_args] without a check: with no
    positional declaration the first bare token raises [IndexError], and
    with [x] and [y] declared the third digit of [123] does, after [x]
    and [y] were stored. The text [1 2 3] never gets that far: the blank
    after [1] is not skipped. *)
Theorem positional_overflow_no_ArgError :
  (∀ (E : ArgParser.pyenv) (fuel : nat),
     ArgParser.parse E (S (S fuel)) ArgParser.init "1" (Some 0%nat) [∅]
     = (Raise IndexError, [∅; ∅]))
  ∧ (∀ fuel : nat,
       ArgParser.parse Collab.env (S (S (S (S fuel)))) Collab.engine_xy "123"
         (Some 0%nat) [∅]
       = (Raise IndexError, [∅; {["x" := VInt 1; "y" := VInt 2]}]))
  ∧ (∀ fuel : nat,
       (ArgParser.parse Collab.env fuel Collab.engine_xy "1 2 3"
          (Some 0%nat) [∅]).1
       = Diverge).
Proof.
  split; [|split].
  - intros E fuel. vm_compute. reflexivity.
  - intros fuel.
    by rewrite (parse_from_empty_heap _ _ _ _ (Raise IndexError)
                  {["x" := VInt 1; "y" := VInt 2]} [∅] (Some 0%nat)).
  - intros fuel.
    destruct fuel as [|fuel]; [done|].
    unfold ArgParser.parse.
    unfold mbind at 1. unfold M_bind at 1.
    rewrite (not_falsy [∅] (Some 0%nat) eq_refl).
    unfold mbind at 1. unfold M_bind at 1. unfold dict_new.
    unfold mbind at 1. unfold M_bind at 1.
    cbn [ArgParser.parse_loop].
    rewrite current_total. simpl Reader.str. simpl Reader.idx.
    change (char_at "1 2 3" 0) with (Some "1"%char).
    rewrite bind_lift_ret.
    destruct fuel as [|fuel]; [done|].
    rewrite pcollect_stops by done.
    rewrite bind_lift_ret, bind_lift_ret.
    change (is_char (Some "1"%char) "-") with false. cbv iota.
    change (list_getitem (ArgParser.pos_args Collab.engine_xy) 0)
      with (Ret (Arg.new_positional "x" Collab.t_int)).
    rewrite bind_lift_ret.
    change (ArgParser.parse_val Collab.env Collab.engine_xy
              (Arg.new_positional "x" Collab.t_int) (Reader.init "1 2 3"))
      with (Ret (VInt 1, Reader.mk "1 2 3" 1)).
    rewrite bind_lift_ret. cbv iota beta.
    unfold mbind at 1. unfold M_bind at 1. unfold dict_setitem at 1.
    by rewrite (parse_loop_at_space _ _ _ _ _ _ _ " ").
Qed.

(** ** Fuel

    More fuel never changes an answer that was reached. *)

Lemma diverge_or_not {A} (o : outcome A) : o = Diverge ∨ o ≠ Diverge.
Proof. destruct o; [by right|by right|by left]. Qed.

Lemma refines_refl {A} (m : M A) : refines m m.
Proof. by intros h r h' Hm _. Qed.

Lemma refines_diverge {A} (m : M A) : refines diverge m.
Proof. intros h r h' [= <- <-] Hr. done. Qed.

Lemma refines_lift {A} (o1 o2 : outcome A) :
  outcome_le o1 o2 → refines (lift o1) (lift o2).
Proof.
  intros Ho h r h' [= <- <-] Hr. unfold lift. by rewrite (Ho Hr).
Qed.

Lemma refines_bind {A B} (m1 m2 : M A) (k1 k2 : A → M B) :
  refines m1 m2 →
  (∀ a, refines (k1 a) (k2 a)) →
  refines (m1 ≫= k1) (m2 ≫= k2).
Proof.
  intros Hm Hk h r h' Hrun Hr. unfold mbind, M_bind in *.
  destruct (m1 h) as [[a|e|] h1] eqn:Hm1.
  - rewrite (Hm h (Ret a) h1 Hm1) by done. by apply Hk.
  - rewrite (Hm h (Raise e) h1 Hm1) by done. done.
  - injection Hrun as <- <-. done.
Qed.

Lemma collect_loop_mono (n k : nat) (self : Reader.t) (pred : ascii → bool)
    (acc : string) :
  (n ≤ k)%nat →
  outcome_le (Reader.collect_loop n self pred acc)
             (Reader.collect_loop k self pred acc).
Proof.
  revert k acc. induction n as [|n IH]; intros k acc Hk; [by intros []|].
  destruct k as [|k]; [lia|]. simpl. rewrite current_total. simpl.
  destruct (char_at _ _) as [ch|]; [|done].
  destruct (pred ch); [|done]. apply IH. lia.
Qed.

Lemma pcollect_mono (n k : nat) (self : Reader.t) (pred : ascii → bool) :
  (n ≤ k)%nat →
  outcome_le (Reader.pcollect n self pred) (Reader.pcollect k self pred).
Proof.
  revert k. induction n as [|n IH]; intros k Hk; [by intros []|].
  destruct k as [|k]; [lia|]. simpl. rewrite current_total. simpl.
  destruct (char_at _ _) as [ch|]; [|done].
  destruct (pred ch); [|done]. apply IH. lia.
Qed.

(** Takes two runs of a loop body apart side by side. *)
Ltac refines_step :=
  first
    [ apply refines_refl
    | apply refines_diverge
    | apply refines_bind; [|intros ?]
    | match goal with
      | |- refines (match ?x with _ => _ end) _ => destruct x
      end ].

Lemma parse_short_mono (E : ArgParser.pyenv) (n k : nat) (self : ArgParser.t)
    (out : loc) (reader : Reader.t) :
  (n ≤ k)%nat →
  refines (ArgParser.parse_short E n self out reader)
          (ArgParser.parse_short E k self out reader).
Proof.
  revert k reader. induction n as [|n IH]; intros k reader Hk.
  - apply refines_diverge.
  - destruct k as [|k]; [lia|]. cbn [ArgParser.parse_short].
    repeat refines_step. apply IH. lia.
Qed.

Lemma parse_loop_mono (E : ArgParser.pyenv) (n k : nat) (self : ArgParser.t)
    (out : loc) (pIdx : Z) (reader : Reader.t) :
  (n ≤ k)%nat →
  refines (ArgParser.parse_loop E n self out pIdx reader)
          (ArgParser.parse_loop E k self out pIdx reader).
Proof.
  revert k pIdx reader. induction n as [|n IH]; intros k pIdx reader Hk.
  - apply refines_diverge.
  - destruct k as [|k]; [lia|]. cbn [ArgParser.parse_loop].
    repeat refines_step;
      first [ apply IH; lia
            | apply parse_short_mono; lia
            | apply refines_lift, pcollect_mono; lia
            | apply refines_lift, collect_loop_mono; lia ].
Qed.

Lemma parse_mono (E : ArgParser.pyenv) (n k : nat) (self : ArgParser.t)
    (str : string) (out : option loc) :
  (n ≤ k)%nat →
  refines (ArgParser.parse E n self str out) (ArgParser.parse E k self str out).
Proof.
  intros Hk. unfold ArgParser.parse.
  repeat refines_step. by apply parse_loop_mono.
Qed.

(** The outcome and the stored results of [parse_shape] do not depend on
    the fuel once the fuel suffices. *)
Lemma parse_shape_mono (E : ArgParser.pyenv) (n k : nat) (self : ArgParser.t)
    (str : string) (h1 h2 : heap) (out1 out2 : option loc)
    (r1 r2 : outcome loc) (h1' h2' : heap) :
  (n ≤ k)%nat →
  falsy h1 out1 → ArgParser.parse E n self str out1 h1 = (r1, h1') →
  falsy h2 out2 → ArgParser.parse E k self str out2 h2 = (r2, h2') →
  r1 ≠ Diverge →
  ∃ (res : outcome unit) (W : gmap string value),
    r1 = (_ ← res; Ret (length h1)) ∧ h1' = h1 ++ [W]
    ∧ r2 = (_ ← res; Ret (length h2)) ∧ h2' = h2 ++ [W].
Proof.
  intros Hk Hf1 H1 Hf2 H2 Hr1.
  destruct (parse_shape E n self str) as (res & W & Hn & _).
  destruct (parse_shape E k self str) as (res' & W' & Hk' & _).
  rewrite (Hn h1 out1 Hf1) in H1. injection H1 as <- <-.
  rewrite (Hk' h2 out2 Hf2) in H2. injection H2 as <- <-.
  exists res, W. split; [done|]. split; [done|].
  pose proof (parse_mono E n k self str None Hk [] _ _ (Hn [] None I)) as Hm.
  rewrite (Hk' [] None I) in Hm.
  assert ((_ ← res; Ret (length ([] : heap))) ≠ (Diverge : outcome loc)) as Hnd.
  { destruct res; simpl in *; done. }
  specialize (Hm Hnd). injection Hm as Hres ->.
  split; [|done]. destruct res, res'; simpl in *; congruence.
Qed.

Lemma parse_shape_same_fuel (E : ArgParser.pyenv) (n : nat) (self : ArgParser.t)
    (str : string) (h1 h2 : heap) (out1 out2 : option loc)
    (r1 r2 : outcome loc) (h1' h2' : heap) :
  falsy h1 out1 → ArgParser.parse E n self str out1 h1 = (r1, h1') →
  falsy h2 out2 → ArgParser.parse E n self str out2 h2 = (r2, h2') →
  r1 = Diverge → r2 = Diverge.
Proof.
  intros Hf1 H1 Hf2 H2 ->.
  destruct (parse_shape E n self str) as (res & W & Hn & _).
  rewrite (Hn h1 out1 Hf1) in H1. rewrite (Hn h2 out2 Hf2) in H2.
  injection H2 as <- _. by destruct res.
Qed.

(** C9. Two calls of [parse] on the same text, one after the other, each
    handed [None] or an empty dictionary, agree whenever both come to an
    end: either both raise the same exception, or both return, and then
    the two returned objects are distinct and hold equal mappings once
    both calls are over. A call can only be cut short while the other one
    ends if it was given less fuel. *)
Theorem parse_twice_equal (E : ArgParser.pyenv) (fuel1 fuel2 : nat)
    (self : ArgParser.t) (str : string) (out1 out2 : option loc) (h : heap)
    (r1 : outcome loc) (h1 : heap) (r2 : outcome loc) (h2 : heap) :
  falsy h out1 →
  ArgParser.parse E fuel1 self str out1 h = (r1, h1) →
  falsy h1 out2 →
  ArgParser.parse E fuel2 self str out2 h1 = (r2, h2) →
  match r1, r2 with
  | Ret l1, Ret l2 =>
      l1 ≠ l2 ∧ ∃ d, h1 !! l1 = Some d ∧ h2 !! l1 = Some d ∧ h2 !! l2 = Some d
  | Raise e1, Raise e2 => e1 = e2
  | Diverge, Diverge => True
  | Diverge, _ => (fuel1 < fuel2)%nat
  | _, Diverge => (fuel2 < fuel1)%nat
  | _, _ => False
  end.
Proof.
  intros Hf1 H1 Hf2 H2.
  assert (∀ l1 l2 W, r1 = Ret l1 → r2 = Ret l2 →
            l1 = length h → h1 = h ++ [W] →
            l2 = length h1 → h2 = h1 ++ [W] →
            l1 ≠ l2 ∧ ∃ d, h1 !! l1 = Some d ∧ h2 !! l1 = Some d
                           ∧ h2 !! l2 = Some d) as Hret.
  { intros l1 l2 W _ _ -> -> -> ->. split; [rewrite length_app; simpl; lia|].
    exists W. split; [by apply list_lookup_middle|]. split.
    - rewrite lookup_app_l by (rewrite length_app; simpl; lia).
      by apply list_lookup_middle.
    - by apply list_lookup_middle. }
  destruct (Nat.le_gt_cases fuel1 fuel2) as [Hle|Hgt].
  - destruct (diverge_or_not r1) as [->|Hr1].
    + destruct (decide (fuel1 = fuel2)) as [->|Hne].
      * by rewrite (parse_shape_same_fuel E fuel2 self str h h1 out1 out2
                      Diverge r2 h1 h2 Hf1 H1 Hf2 H2).
      * destruct r2; [lia|lia|done].
    + destruct (parse_shape_mono E fuel1 fuel2 self str h h1 out1 out2
                  r1 r2 h1 h2 Hle Hf1 H1 Hf2 H2 Hr1)
        as (res & W & -> & Hh1 & -> & Hh2).
      destruct res as [[]|e|]; simpl; [|done..].
      by apply (Hret _ _ W).
  - destruct (diverge_or_not r2) as [->|Hr2].
    + destruct r1; [lia|lia|done].
    + destruct (parse_shape_mono E fuel2 fuel1 self str h1 h out2 out1
                  r2 r1 h2 h1 ltac:(lia) Hf2 H2 Hf1 H1 Hr2)
        as (res & W & -> & Hh2 & -> & Hh1).
      destruct res as [[]|e|]; simpl; [|done..].
      by apply (Hret _ _ W).
Qed.

Lemma parse_twice_equal_witness :
  (2 ≠ 3)%nat
  ∧ ∃ d : gmap string value,
      ([∅; ∅; {["w" := VStr "ab"]}] : heap) !! 2%nat = Some d
      ∧ ([∅; ∅; {["w" := VStr "ab"]}; {["w" := VStr "ab"]}] : heap) !! 2%nat
        = Some d
      ∧ ([∅; ∅; {["w" := VStr "ab"]}; {["w" := VStr "ab"]}] : heap) !! 3%nat
        = Some d.
Proof.
  apply (parse_twice_equal Collab.env 4 7 Collab.engine_w "ab"
           (Some 0%nat) (Some 1%nat) [∅; ∅]
           (Ret 2%nat) [∅; ∅; {["w" := VStr "ab"]}]
           (Ret 3%nat) [∅; ∅; {["w" := VStr "ab"]}; {["w" := VStr "ab"]}]).
  - reflexivity.
  - vm_compute. reflexivity.
  - reflexivity.
  - vm_compute. reflexivity.
Defined.


Lemma pcollect_at_token (n : nat) (reader : Reader.t) (c : ascii) :
  Reader.current reader = Ret (Some c) → isspace c = false →
  Reader.pcollect (S n) reader isspace = Ret (VClass "str").
Proof. intros Hc Hsp. simpl. rewrite Hc. simpl. by rewrite Hsp. Qed.

Section Stores.
Context (E : ArgParser.pyenv) (self : ArgParser.t).


(** Lines 213-214: a token with one dash is handed to the inner loop,
    which writes into the same object. *)
Lemma parse_loop_short_cluster (n : nat) (out : loc) (pIdx : Z)
    (reader reader1 : Reader.t) (h : heap) (c1 : option ascii) :
  Reader.current reader = Ret (Some "-"%char) →
  Reader.next reader 1 = Ret (c1, reader1) → c1 ≠ Some "-"%char →
  ArgParser.parse_loop E (S (S n)) self out pIdx reader h
  = (reader' ← ArgParser.parse_short E (S n) self out reader1;
     ArgParser.parse_loop E (S n) self out pIdx reader') h.
Proof.
  intros Hc Hnext Hc1.
  pose proof (pcollect_at_token n reader "-" Hc eq_refl) as Hpc.
  remember (S n) as m eqn:Hm. cbn [ArgParser.parse_loop].
  rewrite Hc, bind_lift_ret, Hpc, bind_lift_ret, bind_lift_ret.
  change (is_char (Some "-"%char) "-") with true. cbv iota.
  rewrite Hnext, bind_lift_ret. cbv iota beta.
  replace (is_char c1 "-") with false; [done|].
  destruct c1 as [c|]; [|done]. unfold is_char, ascii_eqb.
  rewrite bool_decide_eq_false_2; [done|]. congruence.
Qed.




End Stores.



(** What the two calls of the witness store. *)
Example parse_word_result :
  ArgParser.parse Collab.env 4 Collab.engine_w "ab" (Some 0%nat) [∅]
  = (Ret 1%nat, [∅; {["w" := VStr "ab"]}])
  ∧ ArgParser.parse Collab.env 4 Collab.engine_w "ab" (Some 0%nat)
      [{["k" := VNone]}]
    = (Ret 0%nat, [{["w" := VStr "ab"; "k" := VNone]}]).
Proof. split; vm_compute; reflexivity. Qed.

(** ** [parse_val] *)

(** C6, as stated, fails: a value parser that raises a [ValueError] is
    not caught by [parse_val], whose handler is for [ArgError] only, so no
    [ArgError] comes out. *)
Lemma parse_val_does_not_wrap :
  ArgParser.TypeParser_parse Collab.env Collab.t_bad Collab.engine_bad
    (Arg.new_positional "b" Collab.t_bad) (Reader.init "1")
  = Raise (OtherError "ValueError" "fail")
  ∧ ¬ ∃ msg : string,
        ArgParser.parse_val Collab.env Collab.engine_bad
          (Arg.new_positional "b" Collab.t_bad) (Reader.init "1")
        = Raise (ArgError msg).
Proof.
  split; [reflexivity|]. intros [msg Hmsg].
  vm_compute in Hmsg. discriminate Hmsg.
Qed.

(** When the value parser does raise an [ArgError], the handler is
    entered and fails while it builds the text to print. *)
Example parse_val_handler_fails :
  ArgParser.TypeParser_parse Collab.env Collab.t_reject Collab.engine_bad
    (Arg.new_positional "r" Collab.t_reject) (Reader.init "1")
  = Raise (ArgError "rejected")
  ∧ ArgParser.parse_val Collab.env Collab.engine_bad
      (Arg.new_positional "r" Collab.t_reject) (Reader.init "1")
    = Raise TypeError.
Proof. split; reflexivity. Qed.

Lemma parse_val_other (E : ArgParser.pyenv) (self : ArgParser.t)
    (arg : Arg.t) (reader : Reader.t) (e : exn) :
  ArgParser.TypeParser_parse E (Arg.ty arg) self arg reader = Raise e →
  is_ArgError e = false →
  ArgParser.parse_val E self arg reader = Raise e.
Proof. intros Hty He. unfold ArgParser.parse_val. by rewrite Hty, He. Qed.

(** The four places where [parse] calls [parse_val], each in any state
    of its loop. *)
Section Sites.
Context (E : ArgParser.pyenv) (self : ArgParser.t) (arg : Arg.t)
  (reader : Reader.t) (e : exn).
Hypothesis Hval : ArgParser.parse_val E self arg reader = Raise e.

Lemma parse_loop_positional_raises (n : nat) (out : loc) (pIdx : Z)
    (h : heap) (c : ascii) :
  Reader.current reader = Ret (Some c) → c ≠ "-"%char → isspace c = false →
  list_getitem (ArgParser.pos_args self) pIdx = Ret arg →
  ArgParser.parse_loop E (S (S n)) self out pIdx reader h = (Raise e, h).
Proof.
  intros Hc Hdash Hsp Harg.
  pose proof (pcollect_at_token n reader c Hc Hsp) as Hpc.
  remember (S n) as m eqn:Hm. cbn [ArgParser.parse_loop].
  rewrite Hc, bind_lift_ret, Hpc, bind_lift_ret, bind_lift_ret.
  replace (is_char (Some c) "-") with false
    by (unfold is_char, ascii_eqb; by rewrite bool_decide_eq_false_2).
  cbv iota. rewrite Harg, bind_lift_ret, Hval. by rewrite bind_lift_raise.
Qed.

Lemma parse_loop_long_raises (n : nat) (out : loc) (pIdx : Z)
    (r0 r1 r2 : Reader.t) (c2 c3 : option ascii) (name : string) (h : heap) :
  Reader.current r0 = Ret (Some "-"%char) →
  Reader.next r0 1 = Ret (Some "-"%char, r1) →
  Reader.next r1 1 = Ret (c2, r2) →
  Reader.collect (S n) r2
    (λ c, negb (ascii_eqb c " ") && negb (ascii_eqb c "=")) = Ret name →
  dict_getitem (ArgParser.arg_map self) name = Ret arg →
  Reader.current r2 = Ret c2 →
  Arg.sw_handler arg = None ∨ is_char c2 "=" = true →
  Reader.next r2 1 = Ret (c3, reader) →
  ArgParser.parse_loop E (S (S n)) self out pIdx r0 h = (Raise e, h).
Proof.
  intros Hc Hn1 Hn2 Hcol Harg Hc2 Hreads Hn3.
  pose proof (pcollect_at_token n r0 "-" Hc eq_refl) as Hpc.
  remember (S n) as m eqn:Hm. cbn [ArgParser.parse_loop].
  rewrite Hc, bind_lift_ret, Hpc, bind_lift_ret, bind_lift_ret.
  change (is_char (Some "-"%char) "-") with true. cbv iota.
  rewrite Hn1, bind_lift_ret. cbv iota beta.
  change (is_char (Some "-"%char) "-") with true. cbv iota.
  rewrite Hn2, bind_lift_ret. cbv iota beta.
  rewrite Hcol, bind_lift_ret, Harg, bind_lift_ret.
  unfold Arg.not_. unfold mbind at 1. unfold M_bind at 1.
  unfold mret at 1. unfold M_ret at 1.
  rewrite Hc2, bind_lift_ret.
  unfold mbind at 1. unfold M_bind at 1.
  destruct (Arg.sw_handler arg) as [sw|] eqn:Hsw.
  - destruct Hreads as [?|Heq]; [done|]. rewrite Heq.
    rewrite Hn3, bind_lift_ret. cbv iota beta. by rewrite Hval.
  - rewrite Hn3, bind_lift_ret. cbv iota beta. by rewrite Hval.
Qed.

Lemma parse_short_raises (n : nat) (out : loc) (r0 : Reader.t)
    (ch : ascii) (c1 : option ascii) (h : heap) :
  Reader.current r0 = Ret (Some ch) → ch ≠ " "%char →
  dict_getitem (ArgParser.arg_map self) (String ch "") = Ret arg →
  Arg.sw_handler arg = None →
  Reader.next r0 1 = Ret (c1, reader) →
  ArgParser.parse_short E (S n) self out r0 h = (Raise e, h).
Proof.
  intros Hc Hsp Harg Hsw Hnext. cbn [ArgParser.parse_short].
  rewrite Hc, bind_lift_ret.
  replace (ascii_eqb ch " ") with false
    by (unfold ascii_eqb; by rewrite bool_decide_eq_false_2).
  cbv iota. rewrite Harg, bind_lift_ret.
  unfold Arg.not_. unfold mbind at 1. unfold M_bind at 1.
  unfold mret at 1. unfold M_ret at 1.
  rewrite Hsw, Hnext, bind_lift_ret. cbv iota beta.
  rewrite Hval. by rewrite bind_lift_raise.
Qed.

End Sites.

(** What the inner loop raises, the outer loop raises; what the outer
    loop raises, [parse] raises. *)
Lemma parse_loop_cluster_raises (E : ArgParser.pyenv) (self : ArgParser.t)
    (n : nat) (out : loc) (pIdx : Z) (r0 r1 : Reader.t) (c1 : option ascii)
    (h h' : heap) (e : exn) :
  Reader.current r0 = Ret (Some "-"%char) →
  Reader.next r0 1 = Ret (c1, r1) → c1 ≠ Some "-"%char →
  ArgParser.parse_short E (S n) self out r1 h = (Raise e, h') →
  ArgParser.parse_loop E (S (S n)) self out pIdx r0 h = (Raise e, h').
Proof.
  intros Hc Hnext Hc1 Hshort.
  rewrite (parse_loop_short_cluster E self n out pIdx r0 r1 h c1 Hc Hnext Hc1).
  unfold mbind at 1. unfold M_bind at 1. by rewrite Hshort.
Qed.

Lemma parse_raises_new (E : ArgParser.pyenv) (self : ArgParser.t)
    (fuel : nat) (str : string) (out : option loc) (h h' : heap) (e : exn) :
  falsy h out →
  ArgParser.parse_loop E fuel self (length h) 0 (Reader.init str) (h ++ [∅])
  = (Raise e, h') →
  ArgParser.parse E fuel self str out h = (Raise e, h').
Proof.
  intros Hf Hloop. unfold ArgParser.parse.
  unfold mbind at 1. unfold M_bind at 1. rewrite (not_falsy h out Hf).
  unfold mbind at 1. unfold M_bind at 1. unfold dict_new.
  unfold mbind at 1. unfold M_bind at 1.
  by rewrite Hloop.
Qed.

Lemma parse_raises_old (E : ArgParser.pyenv) (self : ArgParser.t)
    (fuel : nat) (str : string) (l : loc) (d : gmap string value)
    (h h' : heap) (e : exn) :
  h !! l = Some d → d ≠ ∅ →
  ArgParser.parse_loop E fuel self l 0 (Reader.init str) h = (Raise e, h') →
  ArgParser.parse E fuel self str (Some l) h = (Raise e, h').
Proof.
  intros Hl Hd Hloop. unfold ArgParser.parse.
  unfold mbind at 1. unfold M_bind at 1. rewrite (not_truthy h l d Hl Hd).
  unfold mbind at 1. unfold M_bind at 1. unfold mret at 1. unfold M_ret at 1.
  unfold mbind at 1. unfold M_bind at 1.
  by rewrite Hloop.
Qed.

Lemma same_or_raises_refl {A} (e : exn) (m : M A) : same_or_raises e m m.
Proof. intros h. by left. Qed.

Lemma same_or_raises_bind {A B} (e : exn) (m' m : M A) (k' k : A → M B) :
  same_or_raises e m' m →
  (∀ a, same_or_raises e (k' a) (k a)) →
  same_or_raises e (m' ≫= k') (m ≫= k).
Proof.
  intros Hm Hk h. unfold mbind, M_bind.
  destruct (Hm h) as [->|[h' ->]].
  - destruct (m h) as [[a|e'|] h1]; [apply Hk|by left|by left].
  - right. by exists h'.
Qed.

(** An environment [E'] whose value parsers do what those of [E] do,
    or raise [e]. *)
Section Faults.
Context (E E' : ArgParser.pyenv) (e : exn).
Hypothesis He : is_ArgError e = false.
Hypothesis Hsw : ∀ (f : function) (self : ArgParser.t) (arg : Arg.t),
  ArgParser.call_sw_handler E' f self arg
  = ArgParser.call_sw_handler E f self arg.
Hypothesis Hpf : ∀ (f : function) (self : ArgParser.t) (arg : Arg.t)
    (reader : Reader.t),
  ArgParser.call_pfunc E' f self arg reader
  = ArgParser.call_pfunc E f self arg reader
  ∨ ArgParser.call_pfunc E' f self arg reader = Raise e.

Lemma parse_val_same_or_raises (self : ArgParser.t) (arg : Arg.t)
    (reader : Reader.t) :
  same_or_raises e (lift (ArgParser.parse_val E' self arg reader))
                   (lift (ArgParser.parse_val E self arg reader)).
Proof.
  intros h. unfold lift, ArgParser.parse_val, ArgParser.TypeParser_parse.
  destruct (Hpf (TypeParser.pfunc (Arg.ty arg)) self arg reader) as [->| ->].
  - by left.
  - right. exists h. by rewrite He.
Qed.

Ltac same_or_raises_step :=
  first
    [ apply same_or_raises_refl
    | rewrite Hsw
    | apply parse_val_same_or_raises
    | apply same_or_raises_bind; [|intros ?]
    | match goal with
      | |- same_or_raises _ (match ?x with _ => _ end) _ => destruct x
      end ].

Lemma parse_short_same_or_raises (fuel : nat) (self : ArgParser.t)
    (out : loc) (reader : Reader.t) :
  same_or_raises e (ArgParser.parse_short E' fuel self out reader)
                   (ArgParser.parse_short E fuel self out reader).
Proof.
  revert reader. induction fuel as [|fuel IH]; intros reader.
  - apply same_or_raises_refl.
  - cbn [ArgParser.parse_short]. repeat same_or_raises_step. apply IH.
Qed.

Lemma parse_loop_same_or_raises (fuel : nat) (self : ArgParser.t)
    (out : loc) (pIdx : Z) (reader : Reader.t) :
  same_or_raises e (ArgParser.parse_loop E' fuel self out pIdx reader)
                   (ArgParser.parse_loop E fuel self out pIdx reader).
Proof.
  revert pIdx reader. induction fuel as [|fuel IH]; intros pIdx reader.
  - apply same_or_raises_refl.
  - cbn [ArgParser.parse_loop].
    repeat same_or_raises_step;
      first [apply IH | apply parse_short_same_or_raises].
Qed.

Lemma parse_same_or_raises (fuel : nat) (self : ArgParser.t) (str : string)
    (out : option loc) :
  same_or_raises e (ArgParser.parse E' fuel self str out)
                   (ArgParser.parse E fuel self str out).
Proof.
  unfold ArgParser.parse. repeat same_or_raises_step.
  apply parse_loop_same_or_raises.
Qed.

End Faults.

(** C6, amended. A failure [e] of the value parser that is not an
    [ArgError] comes out of [parse_val] as it is, and out of [parse] as it
    is, from each of the places where [parse] reads a value and in any
    state of its loops, whichever token is being read and whatever the
    output object holds: a bare token, a long-form argument with a value,
    a value-taking short argument. What the inner loop raises the outer
    loop raises, and what the outer loop raises [parse] raises, for a new
    output object and for the caller's. And over a whole call: when some
    calls of value parsers are made to raise [e], [parse] does what it did
    or raises [e], and nothing else. *)
Theorem parse_val_propagates_other (E : ArgParser.pyenv) (self : ArgParser.t)
    (arg : Arg.t) (reader : Reader.t) (e : exn) :
  ArgParser.TypeParser_parse E (Arg.ty arg) self arg reader = Raise e →
  is_ArgError e = false →
  ArgParser.parse_val E self arg reader = Raise e
  ∧ (∀ (n : nat) (out : loc) (pIdx : Z) (h : heap) (c : ascii),
       Reader.current reader = Ret (Some c) →
       c ≠ "-"%char → isspace c = false →
       list_getitem (ArgParser.pos_args self) pIdx = Ret arg →
       ArgParser.parse_loop E (S (S n)) self out pIdx reader h = (Raise e, h))
  ∧ (∀ (n : nat) (out : loc) (pIdx : Z) (r0 r1 r2 : Reader.t)
       (c2 c3 : option ascii) (name : string) (h : heap),
       Reader.current r0 = Ret (Some "-"%char) →
       Reader.next r0 1 = Ret (Some "-"%char, r1) →
       Reader.next r1 1 = Ret (c2, r2) →
       Reader.collect (S n) r2
         (λ c, negb (ascii_eqb c " ") && negb (ascii_eqb c "=")) = Ret name →
       dict_getitem (ArgParser.arg_map self) name = Ret arg →
       Reader.current r2 = Ret c2 →
       Arg.sw_handler arg = None ∨ is_char c2 "=" = true →
       Reader.next r2 1 = Ret (c3, reader) →
       ArgParser.parse_loop E (S (S n)) self out pIdx r0 h = (Raise e, h))
  ∧ (∀ (n : nat) (out : loc) (r0 : Reader.t) (ch : ascii)
       (c1 : option ascii) (h : heap),
       Reader.current r0 = Ret (Some ch) → ch ≠ " "%char →
       dict_getitem (ArgParser.arg_map self) (String ch "") = Ret arg →
       Arg.sw_handler arg = None →
       Reader.next r0 1 = Ret (c1, reader) →
       ArgParser.parse_short E (S n) self out r0 h = (Raise e, h))
  ∧ (∀ (n : nat) (out : loc) (pIdx : Z) (r0 r1 : Reader.t)
       (c1 : option ascii) (h h' : heap) (e' : exn),
       Reader.current r0 = Ret (Some "-"%char) →
       Reader.next r0 1 = Ret (c1, r1) → c1 ≠ Some "-"%char →
       ArgParser.parse_short E (S n) self out r1 h = (Raise e', h') →
       ArgParser.parse_loop E (S (S n)) self out pIdx r0 h = (Raise e', h'))
  ∧ (∀ (fuel : nat) (str : string) (out : option loc) (h h' : heap)
       (e' : exn),
       falsy h out →
       ArgParser.parse_loop E fuel self (length h) 0 (Reader.init str)
         (h ++ [∅]) = (Raise e', h') →
       ArgParser.parse E fuel self str out h = (Raise e', h'))
  ∧ (∀ (fuel : nat) (str : string) (l : loc) (d : gmap string value)
       (h h' : heap) (e' : exn),
       h !! l = Some d → d ≠ ∅ →
       ArgParser.parse_loop E fuel self l 0 (Reader.init str) h
       = (Raise e', h') →
       ArgParser.parse E fuel self str (Some l) h = (Raise e', h'))
  ∧ (∀ E' : ArgParser.pyenv,
       (∀ (f : function) (self' : ArgParser.t) (arg' : Arg.t),
          ArgParser.call_sw_handler E' f self' arg'
          = ArgParser.call_sw_handler E f self' arg') →
       (∀ (f : function) (self' : ArgParser.t) (arg' : Arg.t)
          (reader' : Reader.t),
          ArgParser.call_pfunc E' f self' arg' reader'
          = ArgParser.call_pfunc E f self' arg' reader'
          ∨ ArgParser.call_pfunc E' f self' arg' reader' = Raise e) →
       ∀ (fuel : nat) (self' : ArgParser.t) (str : string)
         (out : option loc) (h : heap),
         ArgParser.parse E' fuel self' str out h
         = ArgParser.parse E fuel self' str out h
         ∨ ∃ h' : heap,
             ArgParser.parse E' fuel self' str out h = (Raise e, h')).
Proof.
  intros Hty He.
  pose proof (parse_val_other E self arg reader e Hty He) as Hval.
  split; [done|].
  split; [intros; by eapply parse_loop_positional_raises|].
  split; [intros; by eapply parse_loop_long_raises|].
  split; [intros; by eapply parse_short_raises|].
  split; [intros; by eapply parse_loop_cluster_raises|].
  split; [intros; by eapply parse_raises_new|].
  split; [intros; by eapply parse_raises_old|].
  intros E' Hsw Hpf fuel self' str out h.
  by apply (parse_same_or_raises E E' e He Hsw Hpf).
Qed.

(** The second token of [1x] fails, with an output object that holds a
    key already: the [ValueError] comes out of [parse], after [x] was
    stored. *)
Lemma parse_val_propagates_other_witness :
  ArgParser.parse_val Collab.env Fixtures.engine_x_bad
    (Arg.new_positional "b" Collab.t_bad) (Reader.mk "1x" 1)
  = Raise (OtherError "ValueError" "fail")
  ∧ ArgParser.parse_loop Collab.env 2 Fixtures.engine_x_bad 0 1
      (Reader.mk "1x" 1) [<["x" := VInt 1]> {["k" := VNone]}]
    = (Raise (OtherError "ValueError" "fail"),
       [<["x" := VInt 1]> {["k" := VNone]}])
  ∧ ArgParser.parse Collab.env 3 Fixtures.engine_x_bad "1x" (Some 0%nat)
      [{["k" := VNone]}]
    = (Raise (OtherError "ValueError" "fail"),
       [<["x" := VInt 1]> {["k" := VNone]}]).
Proof.
  destruct (parse_val_propagates_other Collab.env Fixtures.engine_x_bad
              (Arg.new_positional "b" Collab.t_bad) (Reader.mk "1x" 1)
              (OtherError "ValueError" "fail") eq_refl eq_refl)
    as (Hval & Hpos & _ & _ & _ & _ & Hold & _).
  assert (ArgParser.parse_loop Collab.env 2 Fixtures.engine_x_bad 0 1
            (Reader.mk "1x" 1) [<["x" := VInt 1]> {["k" := VNone]}]
          = (Raise (OtherError "ValueError" "fail"),
             [<["x" := VInt 1]> {["k" := VNone]}])) as Hloop.
  { apply (Hpos 0%nat 0%nat 1 [<["x" := VInt 1]> {["k" := VNone]}] "x"%char).
    - reflexivity.
    - discriminate.
    - reflexivity.
    - reflexivity. }
  split; [exact Hval|]. split; [exact Hloop|].
  apply (Hold 3%nat "1x" 0%nat {["k" := VNone]}).
  - reflexivity.
  - intros Hk. vm_compute in Hk. discriminate Hk.
  - transitivity (ArgParser.parse_loop Collab.env 2 Fixtures.engine_x_bad 0 1
                    (Reader.mk "1x" 1) [<["x" := VInt 1]> {["k" := VNone]}]).
    + reflexivity.
    + exact Hloop.
Defined.

(** The same failure from a value-taking short argument. *)
Example parse_short_value_fails :
  ArgParser.parse Collab.env 3 Fixtures.engine_n_bad "-n1" None []
  = (Raise (OtherError "ValueError" "fail"), [∅]).
Proof. reflexivity. Qed.

(** ** [add] *)

(** C7, as stated, fails: registering [opt] / [o] a second time goes
    through, and both tables then hold the second declaration where they
    held the first. *)
Lemma add_replaces_duplicate :
  ArgParser.arg_map (ArgParser.add ArgParser.init Collab.opt_int).2 !! "opt"
  = Some Collab.opt_int
  ∧ ArgParser.by_char (ArgParser.add ArgParser.init Collab.opt_int).2 !! "o"
    = Some Collab.opt_int
  ∧ (ArgParser.add (ArgParser.add ArgParser.init Collab.opt_int).2
       Collab.opt_str).1 = Ret tt
  ∧ ArgParser.arg_map
      (ArgParser.add (ArgParser.add ArgParser.init Collab.opt_int).2
         Collab.opt_str).2
    !! "opt" = Some Collab.opt_str
  ∧ ArgParser.by_char
      (ArgParser.add (ArgParser.add ArgParser.init Collab.opt_int).2
         Collab.opt_str).2
    !! "o" = Some Collab.opt_str
  ∧ Collab.opt_int ≠ Collab.opt_str.
Proof. repeat split; try (vm_compute; reflexivity). discriminate. Qed.

Lemma list_insert_at_outcome {A} (l : list A) (i : Z) (x : A) :
  (∃ l', list_insert_at l i x = Ret l')
  ∨ list_insert_at l i x
    = Raise (OtherError "OverflowError"
               "Python int too large to convert to C ssize_t").
Proof.
  unfold list_insert_at. destruct (_ || _); [by right|left; by eexists].
Qed.

(** The two tables after [add], however the call ends. *)
Lemma add_tables (self : ArgParser.t) (arg : Arg.t) :
  ArgParser.arg_map (ArgParser.add self arg).2
  = <[Arg.name arg := arg]> (ArgParser.arg_map self)
  ∧ ArgParser.by_char (ArgParser.add self arg).2
    = match Arg.char arg with
      | Some c => <[c := arg]> (ArgParser.by_char self)
      | None => ArgParser.by_char self
      end
  ∧ ArgParser.types (ArgParser.add self arg).2 = ArgParser.types self.
Proof.
  unfold ArgParser.add.
  destruct (Arg.pos arg) as [p|]; [|by destruct (Arg.char arg)].
  destruct (p =? POS_APPEND_BACK); [by destruct (Arg.char arg)|].
  destruct (list_insert_at _ _ _); by destruct (Arg.char arg).
Qed.

Lemma add_outcome (self : ArgParser.t) (arg : Arg.t) :
  (ArgParser.add self arg).1 = Ret tt
  ∨ (ArgParser.add self arg).1
    = Raise (OtherError "OverflowError"
               "Python int too large to convert to C ssize_t").
Proof.
  unfold ArgParser.add. destruct (Arg.pos arg) as [p|]; [|by left].
  destruct (p =? POS_APPEND_BACK); [by left|].
  match goal with
  | |- context [list_insert_at ?l ?i ?x] =>
      destruct (list_insert_at_outcome l i x) as [[l' ->]| ->]
  end; [by left|by right].
Qed.

(** C7, amended. No registration fails for a name or a short character
    that is taken: whatever the tables hold, the by-name table afterwards
    maps the name to the new declaration, the by-char table maps its short
    character, if it has one, to the new declaration, and the entries
    under every other key are as before. The one failure that [add] has
    is the [OverflowError] of the list insertion, for a position that is
    not a C [ssize_t]; it comes after the two tables were written, and a
    declaration without position cannot meet it. *)
Theorem add_last_registration_wins (self : ArgParser.t) (arg : Arg.t) :
  ArgParser.arg_map (ArgParser.add self arg).2 !! Arg.name arg = Some arg
  ∧ (∀ k : string, k ≠ Arg.name arg →
       ArgParser.arg_map (ArgParser.add self arg).2 !! k
       = ArgParser.arg_map self !! k)
  ∧ (∀ c : string, Arg.char arg = Some c →
       ArgParser.by_char (ArgParser.add self arg).2 !! c = Some arg
       ∧ ∀ k : string, k ≠ c →
           ArgParser.by_char (ArgParser.add self arg).2 !! k
           = ArgParser.by_char self !! k)
  ∧ (Arg.char arg = None →
       ArgParser.by_char (ArgParser.add self arg).2 = ArgParser.by_char self)
  ∧ ((ArgParser.add self arg).1 = Ret tt
     ∨ (ArgParser.add self arg).1
       = Raise (OtherError "OverflowError"
                  "Python int too large to convert to C ssize_t"))
  ∧ (Arg.pos arg = None → (ArgParser.add self arg).1 = Ret tt).
Proof.
  destruct (add_tables self arg) as (-> & -> & _).
  split; [apply lookup_insert_eq|].
  split; [intros k Hk; by apply lookup_insert_ne|].
  split.
  { intros c ->. split; [apply lookup_insert_eq|].
    intros k Hk. by apply lookup_insert_ne. }
  split; [by intros ->|].
  split; [apply add_outcome|].
  intros Hpos. unfold ArgParser.add. by rewrite Hpos.
Qed.

Lemma add_last_registration_wins_witness :
  ArgParser.arg_map
    (ArgParser.add (ArgParser.add ArgParser.init Collab.opt_int).2
       Collab.opt_str).2
  !! "opt" = Some Collab.opt_str
  ∧ ArgParser.arg_map
      (ArgParser.add (ArgParser.add ArgParser.init Collab.opt_int).2
         Collab.opt_str).2
    !! "verbose"
    = ArgParser.arg_map (ArgParser.add ArgParser.init Collab.opt_int).2
      !! "verbose"
  ∧ ArgParser.by_char
      (ArgParser.add (ArgParser.add ArgParser.init Collab.opt_int).2
         Collab.opt_str).2
    !! "o" = Some Collab.opt_str
  ∧ (ArgParser.add (ArgParser.add ArgParser.init Collab.opt_int).2
       Collab.opt_str).1 = Ret tt.
Proof.
  destruct (add_last_registration_wins
              (ArgParser.add ArgParser.init Collab.opt_int).2 Collab.opt_str)
    as (Hname & Hother & Hchar & _ & _ & Hret).
  split; [exact Hname|]. split; [|split].
  - apply Hother. discriminate.
  - apply (Hchar "o"). reflexivity.
  - apply Hret. reflexivity.
Defined.

Lemma list_insert_at_inside {A} (l : list A) (i : Z) (x : A) :
  0 ≤ i ≤ Z.of_nat (length l) → i ≤ PY_SSIZE_T_MAX →
  list_insert_at l i x = Ret (take (Z.to_nat i) l ++ x :: drop (Z.to_nat i) l).
Proof.
  intros Hi Hmax. unfold list_insert_at, PY_SSIZE_T_MIN in *.
  assert ((i <? - 2 ^ 63) = false) as -> by lia.
  assert ((PY_SSIZE_T_MAX <? i) = false) as -> by lia.
  cbv zeta. simpl orb. cbv iota.
  assert ((i <? 0) = false) as -> by lia.
  by rewrite Z.min_l by lia.
Qed.

(** Beyond the end the element is appended; before the start, counted
    from the end, it is put first. *)
Lemma list_insert_at_beyond {A} (l : list A) (i : Z) (x : A) :
  Z.of_nat (length l) ≤ i → i ≤ PY_SSIZE_T_MAX →
  list_insert_at l i x = Ret (l ++ [x]).
Proof.
  intros Hi Hmax. unfold list_insert_at, PY_SSIZE_T_MIN in *.
  assert ((i <? - 2 ^ 63) = false) as -> by lia.
  assert ((PY_SSIZE_T_MAX <? i) = false) as -> by lia.
  cbv zeta. simpl orb. cbv iota.
  assert ((i <? 0) = false) as -> by lia.
  rewrite Z.min_r, Nat2Z.id by lia.
  by rewrite firstn_all, drop_all.
Qed.

Lemma list_insert_at_before {A} (l : list A) (i : Z) (x : A) :
  PY_SSIZE_T_MIN ≤ i → i ≤ - Z.of_nat (length l) →
  Z.of_nat (length l) ≤ PY_SSIZE_T_MAX →
  list_insert_at l i x = Ret (x :: l).
Proof.
  intros Hmin Hi Hlen. unfold list_insert_at.
  assert ((i <? PY_SSIZE_T_MIN) = false) as -> by lia.
  assert ((PY_SSIZE_T_MAX <? i) = false) as -> by lia.
  cbv zeta. simpl orb. cbv iota.
  destruct (Z.ltb_spec i 0) as [Hneg|Hpos].
  - rewrite Z.max_l, Z.min_l by lia. simpl. by rewrite drop_0.
  - assert (length l = 0%nat) as Hl by lia.
    apply nil_length_inv in Hl as ->. simpl.
    by destruct (Z.to_nat _).
Qed.

Lemma list_insert_at_overflow {A} (l : list A) (i : Z) (x : A) :
  i < PY_SSIZE_T_MIN ∨ PY_SSIZE_T_MAX < i →
  list_insert_at l i x
  = Raise (OtherError "OverflowError"
             "Python int too large to convert to C ssize_t").
Proof.
  intros Hi. unfold list_insert_at.
  assert ((i <? PY_SSIZE_T_MIN) || (PY_SSIZE_T_MAX <? i) = true) as ->; [|done].
  apply orb_true_iff. destruct Hi; [left|right]; lia.
Qed.

(** Wherever the element goes, the others keep their order. *)
Lemma list_insert_at_split {A} (l l' : list A) (i : Z) (x : A) :
  list_insert_at l i x = Ret l' →
  ∃ l1 l2, l = l1 ++ l2 ∧ l' = l1 ++ x :: l2.
Proof.
  unfold list_insert_at. destruct (_ || _); [done|]. cbv zeta.
  intros [= <-]. eexists _, _. split; [|done]. by rewrite take_drop.
Qed.

Lemma appended_add (self : ArgParser.t) (arg : Arg.t) :
  appended (ArgParser.pos_args (ArgParser.add self arg).2)
  = appended (ArgParser.pos_args self) ++ appended [arg].
Proof.
  unfold appended, ArgParser.add.
  destruct (Arg.pos arg) as [p|] eqn:Hpos.
  - destruct (Z.eqb_spec p POS_APPEND_BACK) as [->|Hne].
    + destruct (Arg.char arg); simpl; by rewrite filter_app.
    + assert (filter (λ a, Arg.pos a = Some POS_APPEND_BACK) [arg] = [])
        as Harg.
      { rewrite filter_cons_False; [done|]. rewrite Hpos. congruence. }
      rewrite Harg, app_nil_r.
      destruct (list_insert_at
                  (ArgParser.pos_args
                     match Arg.char arg with
                     | Some c => _
                     | None => _
                     end) _ arg) as [l'|e|] eqn:Hins.
      * apply list_insert_at_split in Hins as (l1 & l2 & Hl & ->). simpl.
        assert (ArgParser.pos_args self = l1 ++ l2) as ->
          by by destruct (Arg.char arg).
        rewrite !filter_app, filter_cons_False; [done|].
        rewrite Hpos. congruence.
      * by destruct (Arg.char arg).
      * by destruct (Arg.char arg).
  - rewrite (filter_cons_False _ arg) by by rewrite Hpos.
    rewrite filter_nil, app_nil_r. by destruct (Arg.char arg).
Qed.

Lemma add_pos_args_append (self : ArgParser.t) (arg : Arg.t) :
  Arg.pos arg = Some POS_APPEND_BACK →
  ArgParser.add self arg
  = (Ret tt,
     ArgParser.mk (ArgParser.arg_map (ArgParser.add self arg).2)
       (ArgParser.pos_args self ++ [arg])
       (ArgParser.by_char (ArgParser.add self arg).2)
       (ArgParser.types self)).
Proof.
  intros Hpos. unfold ArgParser.add. rewrite Hpos. simpl.
  by destruct (Arg.char arg).
Qed.

(** The positional list after an insertion at an index that is inside
    the list. *)
Lemma add_pos_args_insert (self : ArgParser.t) (arg : Arg.t) (p : Z) :
  Arg.pos arg = Some p → p ≠ POS_APPEND_BACK →
  0 ≤ get_idx_by_pos (Z.of_nat (length (ArgParser.pos_args self))) p
    ≤ Z.of_nat (length (ArgParser.pos_args self)) →
  Z.of_nat (length (ArgParser.pos_args self)) ≤ PY_SSIZE_T_MAX →
  (ArgParser.add self arg).1 = Ret tt
  ∧ ArgParser.pos_args (ArgParser.add self arg).2
    = take (Z.to_nat
              (get_idx_by_pos (Z.of_nat (length (ArgParser.pos_args self))) p))
        (ArgParser.pos_args self)
      ++ arg
         :: drop (Z.to_nat
                    (get_idx_by_pos
                       (Z.of_nat (length (ArgParser.pos_args self))) p))
              (ArgParser.pos_args self).
Proof.
  intros Hpos Hne Hidx Hlen. unfold ArgParser.add. rewrite Hpos.
  rewrite (proj2 (Z.eqb_neq _ _) Hne).
  assert (ArgParser.pos_args
            match Arg.char arg with
            | Some c =>
                ArgParser.mk
                  (<[Arg.name arg := arg]> (ArgParser.arg_map self))
                  (ArgParser.pos_args self)
                  (<[c := arg]> (ArgParser.by_char self))
                  (ArgParser.types self)
            | None =>
                ArgParser.mk
                  (<[Arg.name arg := arg]> (ArgParser.arg_map self))
                  (ArgParser.pos_args self) (ArgParser.by_char self)
                  (ArgParser.types self)
            end = ArgParser.pos_args self) as Hl
    by by destruct (Arg.char arg).
  simpl. simpl in Hl. rewrite Hl.
  by rewrite list_insert_at_inside by lia.
Qed.

(** C8, as stated, fails: with three declarations appended, a
    declaration at position -4 is registered at index 2, whereas the
    insertion of a list at position -4 puts the element first. *)
Lemma add_negative_position_counted_twice :
  ArgParser.pos_args
    (ArgParser.add
       (foldl (λ self arg, (ArgParser.add self arg).2) ArgParser.init
          [Collab.pos_b; Collab.pos_c; Fixtures.pos_d])
       Fixtures.pos_e).2
  = [Collab.pos_b; Collab.pos_c; Fixtures.pos_e; Fixtures.pos_d]
  ∧ Arg.pos Fixtures.pos_e = Some (-4)
  ∧ list_insert_at [Collab.pos_b; Collab.pos_c; Fixtures.pos_d] (-4)
      Fixtures.pos_e
    = Ret [Fixtures.pos_e; Collab.pos_b; Collab.pos_c; Fixtures.pos_d]
  ∧ [Collab.pos_b; Collab.pos_c; Fixtures.pos_e; Fixtures.pos_d]
    ≠ [Fixtures.pos_e; Collab.pos_b; Collab.pos_c; Fixtures.pos_d].
Proof. repeat split; try (vm_compute; reflexivity). discriminate. Qed.

(** C8, amended. A declaration with the append marker goes last, and
    after any sequence of registrations the declarations registered with
    it stand in registration order; in a list of a length that a Python
    list can have, one with a position [p] between 0 and the length goes
    to index [p], and what stood at [p] or after moves up by one; one with
    a negative position no smaller than minus the length goes to index
    length + [p]. Registering [b] with the append marker and then [a] at
    position 0 gives [a; b]. Positions outside these two ranges are not
    covered: there the index of the insertion is not the position. *)
Theorem positional_order_is_list_insert :
  (∀ (self : ArgParser.t) (arg : Arg.t),
     Arg.pos arg = Some POS_APPEND_BACK →
     (ArgParser.add self arg).1 = Ret tt
     ∧ ArgParser.pos_args (ArgParser.add self arg).2
       = ArgParser.pos_args self ++ [arg])
  ∧ (∀ args : list Arg.t,
       appended
         (ArgParser.pos_args
            (foldl (λ self arg, (ArgParser.add self arg).2) ArgParser.init
               args))
       = appended args)
  ∧ (∀ (self : ArgParser.t) (arg : Arg.t) (p : Z),
       Arg.pos arg = Some p → p ≠ POS_APPEND_BACK →
       Z.of_nat (length (ArgParser.pos_args self)) ≤ PY_SSIZE_T_MAX →
       0 ≤ p ≤ Z.of_nat (length (ArgParser.pos_args self)) →
       (ArgParser.add self arg).1 = Ret tt
       ∧ ArgParser.pos_args (ArgParser.add self arg).2
         = take (Z.to_nat p) (ArgParser.pos_args self)
           ++ arg :: drop (Z.to_nat p) (ArgParser.pos_args self))
  ∧ (∀ (self : ArgParser.t) (arg : Arg.t) (p : Z),
       Arg.pos arg = Some p →
       Z.of_nat (length (ArgParser.pos_args self)) ≤ PY_SSIZE_T_MAX →
       - Z.of_nat (length (ArgParser.pos_args self)) ≤ p < 0 →
       (ArgParser.add self arg).1 = Ret tt
       ∧ ArgParser.pos_args (ArgParser.add self arg).2
         = take (length (ArgParser.pos_args self) - Z.to_nat (- p))
             (ArgParser.pos_args self)
           ++ arg :: drop (length (ArgParser.pos_args self) - Z.to_nat (- p))
                       (ArgParser.pos_args self))
  ∧ (∀ a b : Arg.t,
       Arg.pos b = Some POS_APPEND_BACK → Arg.pos a = Some 0 →
       ArgParser.pos_args
         (ArgParser.add (ArgParser.add ArgParser.init b).2 a).2
       = [a; b]).
Proof.
  split; [|split; [|split; [|split]]].
  - intros self arg Hpos. by rewrite (add_pos_args_append self arg Hpos).
  - intros args.
    assert (∀ self,
              appended
                (ArgParser.pos_args
                   (foldl (λ self arg, (ArgParser.add self arg).2) self args))
              = appended (ArgParser.pos_args self) ++ appended args) as H.
    { induction args as [|a args IH]; intros self; simpl.
      - by rewrite app_nil_r.
      - rewrite IH, appended_add, <- app_assoc. f_equal.
        unfold appended. by rewrite <- filter_app. }
    by rewrite H.
  - intros self arg p Hpos Hne Hlen Hp.
    assert (get_idx_by_pos (Z.of_nat (length (ArgParser.pos_args self))) p = p)
      as Hidx.
    { unfold get_idx_by_pos. by assert ((p <? 0) = false) as -> by lia. }
    destruct (add_pos_args_insert self arg p Hpos Hne) as [Hret Hl];
      rewrite ?Hidx; [lia|done|].
    rewrite Hidx in Hl. by split.
  - intros self arg p Hpos Hlen Hp.
    assert (p ≠ POS_APPEND_BACK) as Hne by (unfold POS_APPEND_BACK; lia).
    assert (get_idx_by_pos (Z.of_nat (length (ArgParser.pos_args self))) p
            = Z.of_nat (length (ArgParser.pos_args self)) + p) as Hidx.
    { unfold get_idx_by_pos. by assert ((p <? 0) = true) as -> by lia. }
    destruct (add_pos_args_insert self arg p Hpos Hne) as [Hret Hl];
      rewrite ?Hidx; [lia|done|].
    rewrite Hidx in Hl. split; [done|]. rewrite Hl.
    by replace (Z.to_nat (Z.of_nat (length (ArgParser.pos_args self)) + p))
      with (length (ArgParser.pos_args self) - Z.to_nat (- p))%nat by lia.
  - intros a b Hb Ha.
    rewrite (add_pos_args_append ArgParser.init b Hb).
    destruct (add_pos_args_insert
                (ArgParser.add ArgParser.init b).2 a 0 Ha) as [_ Hl].
    + unfold POS_APPEND_BACK. lia.
    + rewrite (add_pos_args_append ArgParser.init b Hb). simpl.
      unfold get_idx_by_pos. simpl. lia.
    + rewrite (add_pos_args_append ArgParser.init b Hb). simpl.
      unfold PY_SSIZE_T_MAX. lia.
    + rewrite (add_pos_args_append ArgParser.init b Hb) in Hl. exact Hl.
Qed.

Lemma positional_order_is_list_insert_witness :
  ArgParser.pos_args
    (ArgParser.add (ArgParser.add ArgParser.init Collab.pos_b).2
       Collab.pos_a).2
  = [Collab.pos_a; Collab.pos_b]
  ∧ ArgParser.pos_args
      (ArgParser.add (ArgParser.add ArgParser.init Collab.pos_b).2
         Collab.pos_c).2
    = [Collab.pos_b; Collab.pos_c]
  ∧ ArgParser.pos_args
      (ArgParser.add
         (foldl (λ self arg, (ArgParser.add self arg).2) ArgParser.init
            [Collab.pos_b; Collab.pos_c])
         Collab.pos_z).2
    = [Collab.pos_b; Collab.pos_z; Collab.pos_c].
Proof.
  destruct positional_order_is_list_insert
    as (Happend & _ & _ & Hneg & Hfirst).
  split; [|split].
  - apply Hfirst; reflexivity.
  - apply (Happend (ArgParser.add ArgParser.init Collab.pos_b).2 Collab.pos_c).
    reflexivity.
  - apply (Hneg (foldl (λ self arg, (ArgParser.add self arg).2) ArgParser.init
                   [Collab.pos_b; Collab.pos_c])
             Collab.pos_z (-1)).
    + reflexivity.
    + vm_compute. discriminate.
    + simpl. lia.
Defined.

(** * Further properties of the cursor *)

(** X1. Stepping forward by [amt] and then back by [amt] puts the
    cursor where it was, whatever [amt] is and even when the step in
    between left the text, and the step back returns the character that
    [current] returned before. *)
Theorem next_prev_round_trip (self : Reader.t) (amt : Z) :
  ('(_, reader) ← Reader.next self amt; Reader.prev reader amt)
  = (c ← Reader.current self; Ret (c, self))
  ∧ ('(_, reader) ← Reader.prev self amt; Reader.next reader amt)
    = (c ← Reader.current self; Ret (c, self)).
Proof.
  rewrite next_total, prev_total, current_total. simpl.
  rewrite prev_total, next_total. simpl.
  destruct self as [s i]. simpl.
  replace (i + amt - amt) with i by lia.
  by replace (i - amt + amt) with i by lia.
Qed.

(** X2. Two steps forward are one step by the sum: the cursor ends at
    the same index and the same character is returned, whether or not the
    first step left the text. *)
Theorem next_next_compose (self : Reader.t) (a b : Z) :
  ('(_, reader) ← Reader.next self a; Reader.next reader b)
  = Reader.next self (a + b).
Proof.
  rewrite !next_total. simpl. rewrite next_total. simpl.
  by rewrite Z.add_assoc.
Qed.

(** X3. [peek] returns what [next] would return and leaves the cursor
    alone; with offset 0 it is [current]; and [prev] by an amount is
    [next] by the opposite amount. *)
Theorem peek_is_next_without_moving (self : Reader.t) (off : Z) :
  Reader.peek self off = ('(c, _) ← Reader.next self off; Ret c)
  ∧ Reader.peek self 0 = Reader.current self
  ∧ Reader.prev self off = Reader.next self (- off).
Proof.
  rewrite !peek_total, !next_total, prev_total, current_total. simpl.
  rewrite Z.add_0_r. by replace (Reader.idx self + - off)
    with (Reader.idx self - off) by lia.
Qed.

(** X4. The argument of [at], when it is not positive, is an offset
    back from the cursor, taken by its absolute value: [at(-n)] and
    [at(0)] read what [peek(-n)] and [current] read. When it is positive
    the cursor plays no part in the answer. *)
Theorem at_relative_or_absolute (s : string) (i j index : Z) :
  (index ≤ 0 →
   Reader.at_ (Reader.mk s i) index = Reader.peek (Reader.mk s i) index)
  ∧ (0 < index →
     Reader.at_ (Reader.mk s i) index = Reader.at_ (Reader.mk s j) index).
Proof.
  split.
  - intros Hi. rewrite at_relative, peek_total by done. simpl.
    by replace (i - Z.abs index) with (i + index) by lia.
  - intros Hi. unfold Reader.at_. by destruct (Z.ltb_spec 0 index); [|lia].
Qed.

Lemma at_relative_or_absolute_witness :
  Reader.at_ (Reader.mk "abc" 2) (-1) = Reader.peek (Reader.mk "abc" 2) (-1)
  ∧ Reader.at_ (Reader.mk "abc" 2) 1 = Reader.at_ (Reader.mk "abc" 0) 1.
Proof.
  destruct (at_relative_or_absolute "abc" 2 0 (-1)) as [Hrel _].
  destruct (at_relative_or_absolute "abc" 2 0 1) as [_ Habs].
  split; [apply Hrel; lia | apply Habs; lia].
Defined.

Lemma collect_loop_returns_acc (fuel : nat) (self : Reader.t)
    (pred : ascii → bool) (acc s : string) :
  Reader.collect_loop fuel self pred acc = Ret s → s = acc.
Proof.
  destruct fuel as [|fuel]; [done|]. simpl. rewrite current_total. simpl.
  destruct (char_at _ _) as [ch|] eqn:Hc; [|by intros [= <-]].
  destruct (pred ch) eqn:Hp; [|by intros [= <-]].
  by rewrite (collect_loop_stuck fuel self pred _ ch).
Qed.

Lemma collect_loop_no_raise (fuel : nat) (self : Reader.t)
    (pred : ascii → bool) (acc : string) (e : exn) :
  Reader.collect_loop fuel self pred acc ≠ Raise e.
Proof.
  revert acc. induction fuel as [|fuel IH]; intros acc; [done|].
  simpl. rewrite current_total. simpl.
  destruct (char_at _ _) as [ch|]; [|done].
  destruct (pred ch); [apply IH|done].
Qed.

Lemma pcollect_no_raise (fuel : nat) (self : Reader.t)
    (pred : ascii → bool) (e : exn) :
  Reader.pcollect fuel self pred ≠ Raise e.
Proof.
  induction fuel as [|fuel IH]; [done|].
  simpl. rewrite current_total. simpl.
  destruct (char_at _ _) as [ch|]; [|done].
  destruct (pred ch); [apply IH|done].
Qed.

(** X5. [collect] never raises, and the only text it ever returns is
    the empty one: it returns exactly when the cursor is outside the text
    or the predicate rejects the current character, and it has gathered
    nothing then. *)
Theorem collect_returns_only_empty (fuel : nat) (self : Reader.t)
    (pred : ascii → bool) :
  (∀ e : exn, Reader.collect fuel self pred ≠ Raise e)
  ∧ (∀ s : string,
       Reader.collect fuel self pred = Ret s →
       s = ""
       ∧ match Reader.peek self 0 with
         | Ret (Some ch) => pred ch = false
         | Ret None => True
         | _ => False
         end).
Proof.
  split; [intros e; apply collect_loop_no_raise|].
  intros s Hs. split; [by apply (collect_loop_returns_acc fuel self pred)|].
  rewrite peek_total, Z.add_0_r. unfold Reader.collect in Hs.
  destruct (char_at _ _) as [ch|] eqn:Hc; [|done].
  destruct (pred ch) eqn:Hp; [|done].
  by rewrite (collect_loop_stuck fuel self pred _ ch) in Hs.
Qed.

Lemma collect_returns_only_empty_witness :
  "" = ""
  ∧ match Reader.peek (Reader.mk "a=b" 1) 0 with
    | Ret (Some ch) => negb (ascii_eqb ch "=") = false
    | Ret None => True
    | _ => False
    end.
Proof.
  destruct (collect_returns_only_empty 3 (Reader.mk "a=b" 1)
              (λ c, negb (ascii_eqb c "="))) as [_ Hret].
  apply Hret. reflexivity.
Defined.

(** * Further properties of [parse] *)

Lemma parse_diverges_with_loop (E : ArgParser.pyenv) (fuel : nat)
    (self : ArgParser.t) (str : string) (out : option loc) (h : heap) :
  (∀ (o : loc) (h' : heap),
     ArgParser.parse_loop E fuel self o 0 (Reader.init str) h' = (Diverge, h')) →
  (ArgParser.parse E fuel self str out h).1 = Diverge.
Proof.
  intros Hloop. unfold ArgParser.parse.
  assert (∀ o h', (_ ← ArgParser.parse_loop E fuel self o 0 (Reader.init str);
                   mret o) h' = (Diverge, h')) as Hrest.
  { intros o h'. unfold mbind, M_bind. by rewrite Hloop. }
  destruct out as [l|]; simpl.
  - unfold mbind, M_bind in *. simpl.
    destruct (bool_decide _); simpl; by rewrite Hrest.
  - unfold mbind, M_bind in *. simpl. by rewrite Hrest.
Qed.

Lemma char_at_head (c : ascii) (rest : string) :
  char_at (String c rest) 0 = Some c.
Proof.
  unfold char_at. simpl String.length.
  by destruct (Z.leb_spec (Z.of_nat (S (String.length rest))) 0); [lia|].
Qed.

(** X6. On the empty text [parse] returns at once, for every engine:
    a new empty dictionary when [out] is [None] or empty, and the caller's
    dictionary, with what it held and nothing more, otherwise. *)
Theorem parse_empty_text (E : ArgParser.pyenv) (fuel : nat)
    (self : ArgParser.t) :
  (∀ (h : heap) (out : option loc),
     falsy h out →
     ArgParser.parse E (S fuel) self "" out h = (Ret (length h), h ++ [∅]))
  ∧ (∀ (h : heap) (l : loc) (d : gmap string value),
       h !! l = Some d → d ≠ ∅ →
       ArgParser.parse E (S fuel) self "" (Some l) h = (Ret l, h)).
Proof.
  split.
  - intros h out Hf.
    by rewrite (parse_from_empty_heap E (S fuel) self "" (Ret 0%nat) ∅ h out).
  - intros h l d Hl Hd. unfold ArgParser.parse.
    unfold mbind at 1. unfold M_bind at 1. by rewrite (not_truthy h l d Hl Hd).
Qed.

Lemma parse_empty_text_witness :
  ArgParser.parse Collab.env 1 Collab.engine_xy "" (Some 0%nat) [∅]
  = (Ret 1%nat, [∅; ∅])
  ∧ ArgParser.parse Collab.env 1 Collab.engine_xy "" (Some 0%nat)
      [{["k" := VNone]}]
    = (Ret 0%nat, [{["k" := VNone]}]).
Proof.
  destruct (parse_empty_text Collab.env 0 Collab.engine_xy) as [Hnew Hold].
  split.
  - apply (Hnew [∅] (Some 0%nat)). reflexivity.
  - apply (Hold [{["k" := VNone]}] 0%nat {["k" := VNone]}).
    + reflexivity.
    + intros Hk. vm_compute in Hk. discriminate Hk.
Defined.

(** X7. A text that begins with a whitespace character is never
    parsed: the blank is handed to [pcollect], which does not step over
    it, so [parse] neither returns nor raises, for any engine, any output
    argument and any amount of fuel. *)
Theorem parse_leading_whitespace (E : ArgParser.pyenv) (fuel : nat)
    (self : ArgParser.t) (c : ascii) (rest : string) (out : option loc)
    (h : heap) :
  isspace c = true →
  (ArgParser.parse E fuel self (String c rest) out h).1 = Diverge.
Proof.
  intros Hc. apply parse_diverges_with_loop. intros o h'.
  apply (parse_loop_at_space E fuel self o 0 _ h' c); [|done].
  apply char_at_head.
Qed.

Lemma parse_leading_whitespace_witness :
  (ArgParser.parse Collab.env 9 Collab.engine_xy " 1" None []).1 = Diverge.
Proof.
  apply (parse_leading_whitespace Collab.env 9 Collab.engine_xy " " "1" None []).
  reflexivity.
Defined.

(** X8. A text that begins with two dashes and one more character that
    is neither a blank nor [=] is never parsed: the name is handed to
    [collect], which does not step over its first character, so the
    by-name table is not even consulted. *)
Theorem parse_long_form_never_returns (E : ArgParser.pyenv) (fuel : nat)
    (self : ArgParser.t) (c : ascii) (rest : string) (out : option loc)
    (h : heap) :
  c ≠ " "%char → c ≠ "="%char →
  (ArgParser.parse E fuel self (String "-" (String "-" (String c rest))) out h).1
  = Diverge.
Proof.
  intros Hsp Heq. apply parse_diverges_with_loop. intros o h'.
  apply (parse_loop_long_name E fuel self o 0 _ h' c); try done.
  - unfold char_at. simpl String.length.
    by destruct (Z.leb_spec (Z.of_nat (S (S (S (String.length rest))))) 1);
      [lia|].
  - unfold char_at. simpl String.length.
    by destruct (Z.leb_spec (Z.of_nat (S (S (S (String.length rest))))) 2);
      [lia|].
Qed.

Lemma parse_long_form_never_returns_witness :
  (ArgParser.parse Collab.env 9 Collab.engine_verbose "--verbose" None []).1
  = Diverge.
Proof.
  apply (parse_long_form_never_returns Collab.env 9 Collab.engine_verbose
           "v" "erbose" None []); discriminate.
Defined.

Lemma writes_within_lift (P : string → Prop) {A} (x : outcome A) :
  writes_within P (λ _, lift x).
Proof.
  exists x, ∅. split; [intros k [v Hv]; by rewrite lookup_empty in Hv|].
  intros o h d Hd. unfold lift.
  by rewrite (left_id_L ∅ (∪)), list_insert_id.
Qed.

Lemma writes_within_setitem (P : string → Prop) (k : string) (v : value) :
  P k → writes_within P (λ o, dict_setitem o k v).
Proof.
  intros HP. exists (Ret tt), {[k := v]}. split.
  - intros k' [v' Hv']. apply lookup_singleton_Some in Hv' as [<- _]. done.
  - intros o h d Hd. unfold dict_setitem.
    rewrite <- insert_union_singleton_l. f_equal.
    apply list_eq. intros i. rewrite list_lookup_alter, list_lookup_insert.
    case_decide; subst.
    + rewrite Hd. simpl. rewrite decide_True; [done|].
      split; [done|]. by eapply lookup_lt_Some.
    + rewrite decide_False; [done|]. intros [? _]. done.
Qed.

Lemma writes_within_bind (P : string → Prop) {A B} (m : loc → M A)
    (k : loc → A → M B) :
  writes_within P m →
  (∀ a, writes_within P (λ o, k o a)) →
  writes_within P (λ o, m o ≫= k o).
Proof.
  intros (res & W & HW & Hm) Hk. destruct res as [a|e|].
  - destruct (Hk a) as (res' & W' & HW' & Hka).
    exists res', (W' ∪ W). split.
    + intros key [v Hv]. apply lookup_union_Some_raw in Hv as [Hv|[_ Hv]];
        [apply HW'|apply HW]; by eexists.
    + intros o h d Hd. unfold mbind, M_bind. rewrite (Hm o h d Hd).
      rewrite (Hka o _ (W ∪ d)).
      * by rewrite list_insert_insert_eq, (assoc_L (∪)).
      * apply list_lookup_insert_eq. by eapply lookup_lt_Some.
  - exists (Raise e), W. split; [done|]. intros o h d Hd.
    unfold mbind, M_bind. by rewrite (Hm o h d Hd).
  - exists Diverge, W. split; [done|]. intros o h d Hd.
    unfold mbind, M_bind. by rewrite (Hm o h d Hd).
Qed.

(** A bind whose first part does not touch the heap: what it returned
    is known in the rest. *)
Lemma writes_within_bind_lift (P : string → Prop) {A B} (x : outcome A)
    (k : loc → A → M B) :
  (∀ a, x = Ret a → writes_within P (λ o, k o a)) →
  writes_within P (λ o, lift x ≫= k o).
Proof.
  intros Hk. destruct x as [a|e|].
  - destruct (Hk a eq_refl) as (res & W & HW & Hka).
    exists res, W. split; [done|]. intros o h d Hd. by apply Hka.
  - apply (writes_within_lift P (Raise e)).
  - apply (writes_within_lift P Diverge).
Qed.

Lemma declared_by_name (self : ArgParser.t) (key : string) (arg : Arg.t) :
  dict_getitem (ArgParser.arg_map self) key = Ret arg →
  declared self (Arg.name arg).
Proof.
  unfold dict_getitem. destruct (_ !! key) as [a|] eqn:Hkey; [|done].
  intros [= ->]. exists arg. split; [done|]. left. by exists key.
Qed.

Lemma declared_by_position (self : ArgParser.t) (i : Z) (arg : Arg.t) :
  list_getitem (ArgParser.pos_args self) i = Ret arg →
  declared self (Arg.name arg).
Proof.
  unfold list_getitem. cbv zeta. destruct (_ || _); [done|].
  destruct (_ !! _) as [a|] eqn:Ha; [|done].
  intros [= ->]. exists arg. split; [done|]. right.
  by eapply list_elem_of_lookup_2.
Qed.

Ltac writes_within_step :=
  first
    [ apply writes_within_lift
    | apply (writes_within_lift _ (Ret _))
    | apply (writes_within_lift _ (Raise _))
    | apply (writes_within_lift _ Diverge)
    | apply writes_within_setitem;
        first [ eapply declared_by_name; eassumption
              | eapply declared_by_position; eassumption ]
    | apply writes_within_bind_lift; intros ? ?
    | apply writes_within_bind; [|intros ?]
    | match goal with
      | |- writes_within _ (λ _, match ?x with _ => _ end) => destruct x
      end ].

Lemma parse_short_writes_within (E : ArgParser.pyenv) (fuel : nat)
    (self : ArgParser.t) (reader : Reader.t) :
  writes_within (declared self)
    (λ out, ArgParser.parse_short E fuel self out reader).
Proof.
  revert reader. induction fuel as [|fuel IH]; intros reader.
  - apply (writes_within_lift _ Diverge).
  - cbn [ArgParser.parse_short]. repeat writes_within_step; apply IH.
Qed.

Lemma parse_loop_writes_within (E : ArgParser.pyenv) (fuel : nat)
    (self : ArgParser.t) (pIdx : Z) (reader : Reader.t) :
  writes_within (declared self)
    (λ out, ArgParser.parse_loop E fuel self out pIdx reader).
Proof.
  revert pIdx reader. induction fuel as [|fuel IH]; intros pIdx reader.
  - apply (writes_within_lift _ Diverge).
  - cbn [ArgParser.parse_loop].
    repeat writes_within_step;
      first [apply IH | apply parse_short_writes_within].
Qed.

(** X9. Whatever the text and however the call ends, every key that
    [parse] stores is the name of a declaration that the engine holds, by
    name or by position: a new mapping has no other key, and a mapping
    handed in by the caller gains no other key. *)
Theorem parse_stores_declared_names (E : ArgParser.pyenv) (fuel : nat)
    (self : ArgParser.t) (str : string) (out : option loc) (h : heap)
    (r : outcome loc) (h' : heap) :
  ArgParser.parse E fuel self str out h = (r, h') →
  (falsy h out →
   ∃ W : gmap string value,
     h' = h ++ [W] ∧ ∀ k : string, is_Some (W !! k) → declared self k)
  ∧ (∀ (l : loc) (d : gmap string value),
       out = Some l → h !! l = Some d → d ≠ ∅ →
       ∃ d' : gmap string value,
         h' = <[l := d']> h
         ∧ ∀ k : string,
             is_Some (d' !! k) → is_Some (d !! k) ∨ declared self k).
Proof.
  intros Hrun.
  destruct (parse_loop_writes_within E fuel self 0 (Reader.init str))
    as (res & W & HW & Hloop).
  destruct (parse_shape_of_loop E fuel self str res W Hloop) as [Hnew Hold].
  split.
  - intros Hf. rewrite (Hnew h out Hf) in Hrun. injection Hrun as _ <-.
    by exists W.
  - intros l d -> Hl Hd. rewrite (Hold h l d Hl Hd) in Hrun.
    injection Hrun as _ <-. exists (W ∪ d). split; [done|].
    intros k [v Hv]. apply lookup_union_Some_raw in Hv as [Hv|[_ Hv]].
    + right. apply HW. by eexists.
    + left. by eexists.
Qed.

Lemma parse_stores_declared_names_witness :
  ∃ W : gmap string value,
    ([∅; {["x" := VInt 1; "y" := VInt 2]}] : heap) = [∅] ++ [W]
    ∧ ∀ k : string, is_Some (W !! k) → declared Collab.engine_xy k.
Proof.
  destruct (parse_stores_declared_names Collab.env 4 Collab.engine_xy "123"
              (Some 0%nat) [∅] (Raise IndexError)
              [∅; {["x" := VInt 1; "y" := VInt 2]}]) as [Hnew _].
  - vm_compute. reflexivity.
  - apply Hnew. reflexivity.
Defined.

(** X10. A one-letter cluster [-c] works when [c] is a key of the
    by-name table that leads to a switch: the handler's value is stored
    under the name of that declaration, and [parse] returns. The short
    character of the declaration plays no part. *)
Theorem short_form_resolves_names (E : ArgParser.pyenv) (fuel : nat)
    (self : ArgParser.t) (c : ascii) (arg : Arg.t) (sw : function)
    (v : value) (h : heap) (out : option loc) :
  c ≠ "-"%char → c ≠ " "%char →
  ArgParser.arg_map self !! String c "" = Some arg →
  Arg.sw_handler arg = Some sw →
  ArgParser.call_sw_handler E sw self arg = Ret v →
  falsy h out →
  ArgParser.parse E (S (S (S fuel))) self (String "-" (String c "")) out h
  = (Ret (length h), h ++ [{[Arg.name arg := v]}]).
Proof.
  intros Hdash Hsp Harg Hsw Hv Hf.
  rewrite (parse_from_empty_heap E _ self _ (Ret 0%nat)
             {[Arg.name arg := v]} h out); [done| |done].
  unfold ArgParser.parse.
  unfold mbind at 1. unfold M_bind at 1. simpl not_.
  unfold mbind at 1. unfold M_bind at 1. unfold dict_new. simpl length.
  unfold mbind at 1. unfold M_bind at 1.
  cbn [ArgParser.parse_loop].
  rewrite current_total. simpl Reader.str. simpl Reader.idx.
  change (char_at (String "-" (String c "")) 0) with (Some "-"%char).
  rewrite bind_lift_ret.
  rewrite pcollect_stops by done.
  rewrite bind_lift_ret, bind_lift_ret.
  change (is_char (Some "-"%char) "-") with true. cbv iota.
  rewrite next_total. simpl Reader.str. simpl Reader.idx.
  change (char_at (String "-" (String c "")) (0 + 1)) with (Some c).
  rewrite bind_lift_ret. cbv iota beta.
  replace (is_char (Some c) "-") with false
    by (unfold is_char, ascii_eqb; by rewrite bool_decide_eq_false_2).
  cbv iota.
  unfold mbind at 1. unfold M_bind at 1.
  cbn [ArgParser.parse_short].
  rewrite current_total. simpl Reader.str. simpl Reader.idx.
  change (char_at (String "-" (String c "")) (0 + 1)) with (Some c).
  rewrite bind_lift_ret.
  replace (ascii_eqb c " ") with false
    by (unfold ascii_eqb; by rewrite bool_decide_eq_false_2).
  cbv iota. unfold dict_getitem. rewrite Harg, bind_lift_ret.
  unfold Arg.not_. unfold mbind at 1. unfold M_bind at 1.
  unfold mret at 1. unfold M_ret at 1.
  rewrite Hsw, Hv, bind_lift_ret.
  unfold mbind at 1. unfold M_bind at 1. unfold dict_setitem at 1.
  rewrite next_total. simpl Reader.str. simpl Reader.idx.
  rewrite bind_lift_ret. cbv iota beta.
  rewrite current_total. simpl Reader.str. simpl Reader.idx.
  change (char_at (String "-" (String c "")) (0 + 1 + 1)) with (@None ascii).
  rewrite bind_lift_ret. cbv iota.
  unfold mret at 1. unfold M_ret at 1.
  rewrite current_total. simpl Reader.str. simpl Reader.idx.
  change (char_at (String "-" (String c "")) (0 + 1 + 1)) with (@None ascii).
  rewrite bind_lift_ret. cbv iota.
  simpl. by rewrite insert_empty.
Qed.

Lemma short_form_resolves_names_witness :
  ArgParser.parse Collab.env 3 Fixtures.engine_quiet "-q" (Some 0%nat) [∅]
  = (Ret 1%nat, [∅; {["q" := VBool true]}]).
Proof.
  apply (short_form_resolves_names Collab.env 0 Fixtures.engine_quiet "q"
           Fixtures.quiet "set_true" (VBool true) [∅] (Some 0%nat)).
  - discriminate.
  - discriminate.
  - vm_compute. reflexivity.
  - reflexivity.
  - reflexivity.
  - reflexivity.
Defined.

(** X11. A text made of one bare token is stored under the first
    positional declaration: when the value parser of that declaration
    returns a value and leaves the cursor outside the text, [parse]
    returns a mapping with that one entry. *)
Theorem parse_single_positional (E : ArgParser.pyenv) (fuel : nat)
    (self : ArgParser.t) (c : ascii) (rest : string) (arg : Arg.t)
    (v : value) (reader : Reader.t) (h : heap) (out : option loc) :
  c ≠ "-"%char → isspace c = false →
  list_getitem (ArgParser.pos_args self) 0 = Ret arg →
  ArgParser.parse_val E self arg (Reader.init (String c rest))
  = Ret (v, reader) →
  Reader.current reader = Ret None →
  falsy h out →
  ArgParser.parse E (S (S fuel)) self (String c rest) out h
  = (Ret (length h), h ++ [{[Arg.name arg := v]}]).
Proof.
  intros Hdash Hsp Harg Hval Hend Hf.
  rewrite (parse_from_empty_heap E _ self _ (Ret 0%nat)
             {[Arg.name arg := v]} h out); [done| |done].
  unfold ArgParser.parse.
  unfold mbind at 1. unfold M_bind at 1. simpl not_.
  unfold mbind at 1. unfold M_bind at 1. unfold dict_new. simpl length.
  unfold mbind at 1. unfold M_bind at 1.
  cbn [ArgParser.parse_loop].
  rewrite current_total. simpl Reader.str. simpl Reader.idx.
  rewrite char_at_head, bind_lift_ret.
  rewrite pcollect_stops
    by (simpl Reader.str; simpl Reader.idx; by rewrite char_at_head).
  rewrite bind_lift_ret, bind_lift_ret.
  replace (is_char (Some c) "-") with false
    by (unfold is_char, ascii_eqb; by rewrite bool_decide_eq_false_2).
  cbv iota. rewrite Harg, bind_lift_ret, Hval, bind_lift_ret. cbv iota beta.
  unfold mbind at 1. unfold M_bind at 1. unfold dict_setitem at 1.
  destruct fuel as [|fuel]; cbn [ArgParser.parse_loop].
  all: rewrite Hend, bind_lift_ret; simpl; by rewrite insert_empty.
Qed.

Lemma parse_single_positional_witness :
  ArgParser.parse Collab.env 2 Collab.engine_w "ab" (Some 0%nat) [∅]
  = (Ret 1%nat, [∅; {["w" := VStr "ab"]}]).
Proof.
  apply (parse_single_positional Collab.env 0 Collab.engine_w "a" "b"
           (Arg.new_positional "w" Collab.t_str) (VStr "ab")
           (Reader.mk "ab" 2) [∅] (Some 0%nat)).
  - discriminate.
  - reflexivity.
  - reflexivity.
  - reflexivity.
  - reflexivity.
  - reflexivity.
Defined.

(** * Further properties of registration *)

Lemma list_insert_at_raise {A} (l : list A) (i : Z) (x : A) (e : exn) :
  list_insert_at l i x = Raise e →
  e = OtherError "OverflowError" "Python int too large to convert to C ssize_t"
  ∧ (i < PY_SSIZE_T_MIN ∨ PY_SSIZE_T_MAX < i).
Proof.
  unfold list_insert_at.
  destruct ((i <? PY_SSIZE_T_MIN) || (PY_SSIZE_T_MAX <? i)) eqn:Hb; [|done].
  intros [= <-]. split; [done|].
  apply orb_true_iff in Hb as [Hb|Hb]; [left|right]; lia.
Qed.

Lemma list_insert_at_no_diverge {A} (l : list A) (i : Z) (x : A) :
  list_insert_at l i x ≠ Diverge.
Proof. unfold list_insert_at. by destruct (_ || _). Qed.

(** X12. [add] neither drops nor repeats a positional declaration.
    When it returns, the new list is, for a declaration with a position, a
    rearrangement of the new declaration and the old list, one longer,
    and, for one without, the old list. When it does not return, it has
    raised [OverflowError] for an index that is not a C [ssize_t]: the
    list is then the old one, although the by-name table already holds
    the declaration. *)
Theorem add_keeps_positional_declarations (self : ArgParser.t) (arg : Arg.t) :
  match (ArgParser.add self arg).1 with
  | Ret _ =>
      match Arg.pos arg with
      | Some _ =>
          ArgParser.pos_args (ArgParser.add self arg).2
          ≡ₚ arg :: ArgParser.pos_args self
          ∧ length (ArgParser.pos_args (ArgParser.add self arg).2)
            = S (length (ArgParser.pos_args self))
      | None =>
          ArgParser.pos_args (ArgParser.add self arg).2
          = ArgParser.pos_args self
      end
  | _ =>
      (ArgParser.add self arg).1
      = Raise (OtherError "OverflowError"
                 "Python int too large to convert to C ssize_t")
      ∧ ArgParser.pos_args (ArgParser.add self arg).2 = ArgParser.pos_args self
      ∧ ArgParser.arg_map (ArgParser.add self arg).2 !! Arg.name arg = Some arg
      ∧ ∃ p : Z,
          Arg.pos arg = Some p ∧ p ≠ POS_APPEND_BACK
          ∧ (get_idx_by_pos (Z.of_nat (length (ArgParser.pos_args self))) p
             < PY_SSIZE_T_MIN
             ∨ PY_SSIZE_T_MAX
               < get_idx_by_pos (Z.of_nat (length (ArgParser.pos_args self))) p)
  end.
Proof.
  assert (∀ l : list Arg.t, l ≡ₚ arg :: ArgParser.pos_args self →
          l ≡ₚ arg :: ArgParser.pos_args self
          ∧ length l = S (length (ArgParser.pos_args self))) as Hlen.
  { intros l Hl. split; [done|]. by rewrite Hl. }
  unfold ArgParser.add.
  destruct (Arg.pos arg) as [p|]; [|by destruct (Arg.char arg)].
  destruct (Z.eqb_spec p POS_APPEND_BACK) as [->|Hne].
  { destruct (Arg.char arg); simpl; apply Hlen;
      by rewrite Permutation_app_comm. }
  destruct (Arg.char arg) as [c|]; simpl.
  all: destruct (list_insert_at (ArgParser.pos_args self) _ arg)
         as [l'|e|] eqn:Hins; simpl.
  all: try (by apply list_insert_at_no_diverge in Hins).
  all: try (apply Hlen;
            apply list_insert_at_split in Hins as (l1 & l2 & -> & ->);
            by rewrite Permutation_middle).
  all: apply list_insert_at_raise in Hins as [-> Hrange].
  all: split; [done|]; split; [done|]; split;
         [apply lookup_insert_eq|by exists p].
Qed.

(** X13. Positions outside the list, for a list of a length that a
    Python list can have. A position from the length up to the largest
    [ssize_t] appends. A position below minus the length is counted from
    the end a second time by the list insertion: from minus twice the
    length up to minus the length it lands at index twice the length plus
    the position, in the middle of the list; at or below minus twice the
    length it lands first, as long as length plus position is a
    [ssize_t]. Beyond that range [add] raises [OverflowError], leaves the
    positional list as it was and has the declaration in the by-name
    table. *)
Theorem add_position_out_of_range (self : ArgParser.t) (arg : Arg.t) (p : Z) :
  Arg.pos arg = Some p →
  p ≠ POS_APPEND_BACK →
  Z.of_nat (length (ArgParser.pos_args self)) ≤ PY_SSIZE_T_MAX →
  (Z.of_nat (length (ArgParser.pos_args self)) ≤ p ≤ PY_SSIZE_T_MAX →
   (ArgParser.add self arg).1 = Ret tt
   ∧ ArgParser.pos_args (ArgParser.add self arg).2
     = ArgParser.pos_args self ++ [arg])
  ∧ (- 2 * Z.of_nat (length (ArgParser.pos_args self)) ≤ p
     < - Z.of_nat (length (ArgParser.pos_args self)) →
     (ArgParser.add self arg).1 = Ret tt
     ∧ ArgParser.pos_args (ArgParser.add self arg).2
       = take (2 * length (ArgParser.pos_args self) - Z.to_nat (- p))
           (ArgParser.pos_args self)
         ++ arg :: drop (2 * length (ArgParser.pos_args self) - Z.to_nat (- p))
                     (ArgParser.pos_args self))
  ∧ (p < 0 → p ≤ - 2 * Z.of_nat (length (ArgParser.pos_args self)) →
     PY_SSIZE_T_MIN ≤ Z.of_nat (length (ArgParser.pos_args self)) + p →
     (ArgParser.add self arg).1 = Ret tt
     ∧ ArgParser.pos_args (ArgParser.add self arg).2
       = arg :: ArgParser.pos_args self)
  ∧ (PY_SSIZE_T_MAX < p
     ∨ Z.of_nat (length (ArgParser.pos_args self)) + p < PY_SSIZE_T_MIN →
     (ArgParser.add self arg).1
     = Raise (OtherError "OverflowError"
                "Python int too large to convert to C ssize_t")
     ∧ ArgParser.pos_args (ArgParser.add self arg).2 = ArgParser.pos_args self
     ∧ ArgParser.arg_map (ArgParser.add self arg).2 !! Arg.name arg
       = Some arg).
Proof.
  intros Hpos Hne Hlen.
  assert (∀ (self' : ArgParser.t),
            ArgParser.pos_args self' = ArgParser.pos_args self →
            ArgParser.arg_map self' !! Arg.name arg = Some arg →
            let r := match list_insert_at (ArgParser.pos_args self')
                             (get_idx_by_pos
                                (Z.of_nat (length (ArgParser.pos_args self')))
                                p) arg with
                     | Ret l =>
                         (Ret tt,
                          ArgParser.mk (ArgParser.arg_map self') l
                            (ArgParser.by_char self') (ArgParser.types self'))
                     | Raise e => (Raise e, self')
                     | Diverge => (Diverge, self')
                     end in
            (Z.of_nat (length (ArgParser.pos_args self)) ≤ p ≤ PY_SSIZE_T_MAX →
             r.1 = Ret tt
             ∧ ArgParser.pos_args r.2 = ArgParser.pos_args self ++ [arg])
            ∧ (- 2 * Z.of_nat (length (ArgParser.pos_args self)) ≤ p
               < - Z.of_nat (length (ArgParser.pos_args self)) →
               r.1 = Ret tt
               ∧ ArgParser.pos_args r.2
                 = take (2 * length (ArgParser.pos_args self) - Z.to_nat (- p))
                     (ArgParser.pos_args self)
                   ++ arg
                      :: drop (2 * length (ArgParser.pos_args self)
                               - Z.to_nat (- p))
                           (ArgParser.pos_args self))
            ∧ (p < 0 → p ≤ - 2 * Z.of_nat (length (ArgParser.pos_args self)) →
               PY_SSIZE_T_MIN ≤ Z.of_nat (length (ArgParser.pos_args self)) + p →
               r.1 = Ret tt
               ∧ ArgParser.pos_args r.2 = arg :: ArgParser.pos_args self)
            ∧ (PY_SSIZE_T_MAX < p
               ∨ Z.of_nat (length (ArgParser.pos_args self)) + p
                 < PY_SSIZE_T_MIN →
               r.1
               = Raise (OtherError "OverflowError"
                          "Python int too large to convert to C ssize_t")
               ∧ ArgParser.pos_args r.2 = ArgParser.pos_args self
               ∧ ArgParser.arg_map r.2 !! Arg.name arg = Some arg)) as Hcore.
  { intros self' Hl Hmap. rewrite Hl. cbv zeta.
    set (l := ArgParser.pos_args self) in *. unfold get_idx_by_pos.
    split; [|split; [|split]].
    - intros Hp. assert ((p <? 0) = false) as -> by lia.
      by rewrite list_insert_at_beyond by lia.
    - intros Hp. assert ((p <? 0) = true) as -> by lia.
      unfold list_insert_at, PY_SSIZE_T_MIN, PY_SSIZE_T_MAX in *.
      assert ((Z.of_nat (length l) + p <? - 2 ^ 63) = false) as -> by lia.
      assert ((2 ^ 63 - 1 <? Z.of_nat (length l) + p) = false) as -> by lia.
      cbv zeta. simpl orb. cbv iota.
      assert ((Z.of_nat (length l) + p <? 0) = true) as -> by lia.
      rewrite Z.max_r, Z.min_l by lia. simpl. split; [done|].
      by replace (Z.to_nat (Z.of_nat (length l) + p + Z.of_nat (length l)))
        with (2 * length l - Z.to_nat (- p))%nat by lia.
    - intros Hneg Hp Hmin. assert ((p <? 0) = true) as -> by lia.
      by rewrite list_insert_at_before by lia.
    - intros Hp. rewrite list_insert_at_overflow; [by simpl|].
      unfold PY_SSIZE_T_MIN, PY_SSIZE_T_MAX in *.
      destruct (Z.ltb_spec p 0); lia. }
  unfold ArgParser.add. rewrite Hpos.
  rewrite (proj2 (Z.eqb_neq _ _) Hne).
  destruct (Arg.char arg) as [c|]; apply Hcore; simpl;
    first [done | apply lookup_insert_eq].
Qed.

Lemma add_position_out_of_range_witness :
  ArgParser.pos_args
    (ArgParser.add
       (foldl (λ self arg, (ArgParser.add self arg).2) ArgParser.init
          [Collab.pos_b; Collab.pos_c; Fixtures.pos_d])
       Fixtures.pos_e).2
  = [Collab.pos_b; Collab.pos_c; Fixtures.pos_e; Fixtures.pos_d]
  ∧ (ArgParser.add (ArgParser.add ArgParser.init Collab.pos_b).2
       Fixtures.pos_far).1
    = Raise (OtherError "OverflowError"
               "Python int too large to convert to C ssize_t")
  ∧ ArgParser.pos_args
      (ArgParser.add (ArgParser.add ArgParser.init Collab.pos_b).2
         Fixtures.pos_far).2
    = [Collab.pos_b]
  ∧ ArgParser.arg_map
      (ArgParser.add (ArgParser.add ArgParser.init Collab.pos_b).2
         Fixtures.pos_far).2
    !! "far" = Some Fixtures.pos_far.
Proof.
  destruct (add_position_out_of_range
              (foldl (λ self arg, (ArgParser.add self arg).2) ArgParser.init
                 [Collab.pos_b; Collab.pos_c; Fixtures.pos_d])
              Fixtures.pos_e (-4)) as (_ & Hmid & _).
  { reflexivity. }
  { discriminate. }
  { vm_compute. discriminate. }
  destruct (add_position_out_of_range
              (ArgParser.add ArgParser.init Collab.pos_b).2
              Fixtures.pos_far (2 ^ 63)) as (_ & _ & _ & Hfar).
  { reflexivity. }
  { discriminate. }
  { vm_compute. discriminate. }
  split.
  - apply Hmid. simpl. lia.
  - apply Hfar. left. reflexivity.
Defined.

(** X14. [define_type] registers under the type's tag and the last
    registration wins; it changes no other tag and none of the
    declaration tables, and it can be done before or after [add] with the
    same engine and the same outcome of [add] as a result. *)
Theorem define_type_last_wins (self : ArgParser.t) (ty : TypeParser.t)
    (arg : Arg.t) :
  ArgParser.types (ArgParser.define_type self ty) !! TypeParser.ty ty = Some ty
  ∧ (∀ tag : string, tag ≠ TypeParser.ty ty →
       ArgParser.types (ArgParser.define_type self ty) !! tag
       = ArgParser.types self !! tag)
  ∧ (∀ ty' : TypeParser.t, TypeParser.ty ty' = TypeParser.ty ty →
       ArgParser.define_type (ArgParser.define_type self ty') ty
       = ArgParser.define_type self ty)
  ∧ ArgParser.arg_map (ArgParser.define_type self ty) = ArgParser.arg_map self
  ∧ ArgParser.by_char (ArgParser.define_type self ty) = ArgParser.by_char self
  ∧ ArgParser.pos_args (ArgParser.define_type self ty)
    = ArgParser.pos_args self
  ∧ ArgParser.add (ArgParser.define_type self ty) arg
    = ((ArgParser.add self arg).1,
       ArgParser.define_type (ArgParser.add self arg).2 ty).
Proof.
  split; [apply lookup_insert_eq|].
  split; [intros tag Htag; by apply lookup_insert_ne|].
  split.
  { intros ty' Hty. unfold ArgParser.define_type. simpl.
    by rewrite Hty, insert_insert_eq. }
  split; [done|]. split; [done|]. split; [done|].
  unfold ArgParser.add, ArgParser.define_type.
  destruct (Arg.char arg); simpl;
    (destruct (Arg.pos arg) as [p|]; [|done]);
    (destruct (p =? POS_APPEND_BACK); [done|]);
    by destruct (list_insert_at _ _ _).
Qed.

Lemma define_type_last_wins_witness :
  ArgParser.types
    (ArgParser.define_type
       (ArgParser.define_type ArgParser.init Collab.t_int) Collab.t_str)
  !! "int" = Some Collab.t_int
  ∧ ArgParser.define_type
      (ArgParser.define_type ArgParser.init (TypeParser.mk "int" "word"))
      Collab.t_int
    = ArgParser.define_type ArgParser.init Collab.t_int.
Proof.
  destruct (define_type_last_wins
              (ArgParser.define_type ArgParser.init Collab.t_int) Collab.t_str
              Fixtures.level) as (_ & Hother & _).
  destruct (define_type_last_wins ArgParser.init Collab.t_int Fixtures.level)
    as (Hself & _ & Hagain & _).
  split.
  - rewrite (Hother "int") by discriminate. exact Hself.
  - apply (Hagain (TypeParser.mk "int" "word")). reflexivity.
Defined.

(** X15. Two declarations without a position, with different names and
    with short characters that do not clash, can be registered in either
    order: the engine is the same. *)
Theorem add_commutes (self : ArgParser.t) (a b : Arg.t) :
  Arg.name a ≠ Arg.name b →
  (∀ c : string, Arg.char a = Some c → Arg.char b ≠ Some c) →
  Arg.pos a = None → Arg.pos b = None →
  ArgParser.add (ArgParser.add self a).2 b
  = ArgParser.add (ArgParser.add self b).2 a.
Proof.
  intros Hname Hchar Ha Hb. unfold ArgParser.add.
  rewrite Ha, Hb.
  destruct (Arg.char a) as [ca|], (Arg.char b) as [cb|]; simpl; f_equal;
    f_equal; try by apply insert_insert_ne.
  apply insert_insert_ne. intros Heq. subst. by apply (Hchar _ eq_refl).
Qed.

Lemma add_commutes_witness :
  ArgParser.add (ArgParser.add ArgParser.init Collab.verbose).2 Fixtures.level
  = ArgParser.add (ArgParser.add ArgParser.init Fixtures.level).2
      Collab.verbose.
Proof.
  apply add_commutes.
  - discriminate.
  - intros c [= <-]. discriminate.
  - reflexivity.
  - reflexivity.
Defined.

(** * [fix_path] *)

Lemma string_app_cons (x : ascii) (a b : string) :
  String x a +:+ b = String x (a +:+ b).
Proof. reflexivity. Qed.

Lemma string_app_nil_l (a : string) : "" +:+ a = a.
Proof. reflexivity. Qed.

Lemma string_app_assoc (a b c : string) :
  (a +:+ b) +:+ c = a +:+ (b +:+ c).
Proof.
  induction a as [|x a IH]; [done|].
  by rewrite !string_app_cons, IH.
Qed.

Lemma string_app_nil_r (a : string) : a +:+ "" = a.
Proof.
  induction a as [|x a IH]; [done|].
  by rewrite string_app_cons, IH.
Qed.

Lemma string_app_length (a b : string) :
  String.length (a +:+ b) = (String.length a + String.length b)%nat.
Proof.
  induction a as [|x a IH]; [done|].
  rewrite string_app_cons. simpl. by rewrite IH.
Qed.

Lemma string_get_app_head (pre rest : string) :
  String.get (String.length pre) (pre +:+ rest)
  = match rest with
    | String c _ => Some c
    | EmptyString => None
    end.
Proof.
  induction pre as [|x pre IH]; [by destruct rest|].
  rewrite string_app_cons. simpl. exact IH.
Qed.

Lemma char_at_app_head (pre rest : string) :
  char_at (pre +:+ rest) (Z.of_nat (String.length pre))
  = match rest with
    | String c _ => Some c
    | EmptyString => None
    end.
Proof.
  unfold char_at. rewrite string_app_length, Nat2Z.id, string_get_app_head.
  rewrite (proj2 (Z.ltb_ge (Z.of_nat (String.length pre)) 0))
    by apply Nat2Z.is_nonneg.
  destruct rest as [|c rest]; simpl.
  - by rewrite Nat.add_0_r, Z.leb_refl.
  - by destruct (Z.leb_spec
         (Z.of_nat (String.length pre + S (String.length rest)))
         (Z.of_nat (String.length pre))); [lia|].
Qed.

Lemma fix_path_is_var (environ : gmap string string) (seg : string) :
  (is_var ← (if 2 <? Z.of_nat (String.length seg) then
               c0 ← str_getitem seg 0; Ret (ascii_eqb c0 "%")
             else Ret false);
   Ret (if (is_var : bool) then environ !! str_slice seg 1 (-1) else Some seg))
  = Ret (expand_segment environ seg).
Proof.
  unfold expand_segment.
  destruct (Z.ltb_spec 2 (Z.of_nat (String.length seg))) as [Hlen|Hlen];
    [|done].
  destruct seg as [|c seg]; [simpl in Hlen; lia|].
  destruct (str_getitem_in_range (String c seg) 0) as (c0 & -> & Hc0);
    [lia|].
  simpl in Hc0. by injection Hc0 as <-.
Qed.

(** The cursor loop of [fix_path] visits the rest of the text once and
    gathers [path_segments]. *)
Lemma fix_path_loop_segments (environ : gmap string string) (rest : string) :
  ∀ (pre seg : string) (segments : list (option string)) (fuel : nat),
    (String.length rest < fuel)%nat →
    fix_path_loop environ fuel seg segments
      (Reader.mk (pre +:+ rest) (Z.of_nat (String.length pre)))
      (match rest with
       | String c _ => Some c
       | EmptyString => None
       end)
    = Ret (segments ++ path_segments environ rest seg).
Proof.
  induction rest as [|c rest IH]; intros pre seg segments fuel Hfuel.
  - destruct fuel as [|fuel]; [simpl in Hfuel; lia|].
    simpl. by rewrite app_nil_r.
  - destruct fuel as [|fuel]; [simpl in Hfuel; lia|].
    simpl in Hfuel. cbn [fix_path_loop path_segments].
    rewrite next_total. simpl Reader.str. simpl Reader.idx.
    replace (pre +:+ String c rest) with ((pre +:+ String c "") +:+ rest)
      by by rewrite string_app_assoc.
    replace (Z.of_nat (String.length pre) + 1)
      with (Z.of_nat (String.length (pre +:+ String c "")))
      by (rewrite string_app_length; simpl; lia).
    rewrite char_at_app_head.
    destruct (is_path_sep c).
    + pose proof (fix_path_is_var environ seg) as Hvar.
      destruct (if 2 <? Z.of_nat (String.length seg) then _ else _)
        as [is_var|e|]; simpl in Hvar; try done.
      injection Hvar as Hvar. simpl. rewrite Hvar.
      rewrite IH by lia. by rewrite <- app_assoc.
    + simpl. by rewrite IH by lia.
Qed.

Lemma fix_path_segments (environ : gmap string string) (fuel : nat)
    (pstr : string) :
  (String.length pstr < fuel)%nat →
  fix_path environ fuel pstr
  = fix_path_stitch (path_segments environ pstr "") "".
Proof.
  intros Hfuel. unfold fix_path. cbv zeta.
  rewrite current_total.
  change (char_at (Reader.str (Reader.init pstr)) (Reader.idx (Reader.init pstr)))
    with (char_at ("" +:+ pstr) (Z.of_nat (String.length ""))).
  rewrite char_at_app_head.
  change (Reader.init pstr)
    with (Reader.mk ("" +:+ pstr) (Z.of_nat (String.length ""))).
  unfold mbind at 1. unfold outcome_bind at 1.
  by rewrite (fix_path_loop_segments environ pstr "" "" [] fuel Hfuel).
Qed.

Lemma fix_path_stitch_outcome (segments : list (option string)) (acc : string) :
  (∃ r, fix_path_stitch segments acc = Ret r)
  ∨ fix_path_stitch segments acc = Raise TypeError.
Proof.
  revert acc. induction segments as [|[s|] segments IH]; intros acc; simpl.
  - left. by eexists.
  - apply IH.
  - by right.
Qed.

(** X16. [fix_path] comes to an end on every text: its loop steps the
    cursor once per character, so with fuel for one test more than the
    text has characters it returns a text or raises [TypeError], and more
    fuel does not change the answer. *)
Theorem fix_path_terminates (environ : gmap string string) (fuel : nat)
    (pstr : string) :
  (String.length pstr < fuel)%nat →
  ((∃ r : string, fix_path environ fuel pstr = Ret r)
   ∨ fix_path environ fuel pstr = Raise TypeError)
  ∧ fix_path environ fuel pstr
    = fix_path environ (S (String.length pstr)) pstr.
Proof.
  intros Hfuel. rewrite !fix_path_segments by lia.
  split; [apply fix_path_stitch_outcome|done].
Qed.

Lemma fix_path_terminates_witness :
  ((∃ r : string, fix_path ∅ 12 "src\main/" = Ret r)
   ∨ fix_path ∅ 12 "src\main/" = Raise TypeError)
  ∧ fix_path ∅ 12 "src\main/" = fix_path ∅ 10 "src\main/".
Proof.
  apply (fix_path_terminates ∅ 12 "src\main/"). simpl. lia.
Defined.

Lemma sep_free_cons (c : ascii) (s : string) :
  sep_free (String c s) ↔ is_path_sep c = false ∧ sep_free s.
Proof.
  unfold sep_free. simpl. rewrite andb_true_iff, negb_true_iff. done.
Qed.

Lemma percent_free_cons (c : ascii) (s : string) :
  percent_free (String c s) ↔ ascii_eqb c "%" = false ∧ percent_free s.
Proof.
  unfold percent_free. simpl. rewrite andb_true_iff, negb_true_iff. done.
Qed.

Lemma path_segments_sep_free (environ : gmap string string) (t seg : string) :
  sep_free t → path_segments environ t seg = [].
Proof.
  revert seg. induction t as [|c t IH]; intros seg Ht; [done|].
  apply sep_free_cons in Ht as [Hc Ht]. simpl. rewrite Hc. by apply IH.
Qed.

Lemma path_segments_tail (environ : gmap string string) (p tail seg : string) :
  sep_free tail →
  path_segments environ (p +:+ tail) seg = path_segments environ p seg.
Proof.
  intros Ht. revert seg. induction p as [|c p IH]; intros seg.
  - by apply path_segments_sep_free.
  - rewrite string_app_cons. simpl. rewrite !IH. done.
Qed.

Lemma fix_path_tail (environ : gmap string string) (fuel : nat)
    (p tail : string) :
  sep_free tail →
  (String.length (p +:+ tail) < fuel)%nat →
  fix_path environ fuel (p +:+ tail) = fix_path environ fuel p.
Proof.
  intros Ht Hfuel. rewrite string_app_length in Hfuel.
  rewrite !fix_path_segments by (rewrite ?string_app_length; lia).
  by rewrite path_segments_tail by done.
Qed.

(** X17. Whatever follows the last separator of a path is dropped:
    a tail without separator changes nothing to the result, and a text
    without any separator gives the empty text. *)
Theorem fix_path_drops_tail (environ : gmap string string) (fuel : nat)
    (p tail : string) :
  sep_free tail →
  (String.length (p +:+ tail) < fuel)%nat →
  fix_path environ fuel (p +:+ tail) = fix_path environ fuel p
  ∧ fix_path environ fuel tail = Ret "".
Proof.
  intros Ht Hfuel. split; [by apply fix_path_tail|].
  rewrite string_app_length in Hfuel.
  rewrite fix_path_segments by lia.
  by rewrite path_segments_sep_free.
Qed.

Lemma fix_path_drops_tail_witness :
  fix_path ∅ 20 ("src/lib/" +:+ "main.cpp") = fix_path ∅ 20 "src/lib/"
  ∧ fix_path ∅ 20 "main.cpp" = Ret "".
Proof.
  apply (fix_path_drops_tail ∅ 20 "src/lib/" "main.cpp").
  - reflexivity.
  - simpl. lia.
Defined.

Lemma expand_segment_percent_free (environ : gmap string string) (seg : string) :
  percent_free seg → expand_segment environ seg = Some seg.
Proof.
  intros Hseg. unfold expand_segment. destruct seg as [|c seg].
  - by rewrite andb_false_r.
  - apply percent_free_cons in Hseg as [-> _]. by rewrite andb_false_r.
Qed.

Lemma percent_free_app (a b : string) :
  percent_free (a +:+ b) ↔ percent_free a ∧ percent_free b.
Proof.
  induction a as [|c a IH].
  - rewrite string_app_nil_l. split; [by intros ?|by intros [_ ?]].
  - rewrite string_app_cons, !percent_free_cons, IH. tauto.
Qed.

(** The segments of a text without percent sign that ends with a
    separator, stitched: the text with slashes for separators. *)
Lemma fix_path_stitch_percent_free (environ : gmap string string)
    (p : string) (c : ascii) :
  is_path_sep c = true →
  ∀ seg acc : string,
    percent_free seg → percent_free p →
    fix_path_stitch (path_segments environ (p +:+ String c "") seg) acc
    = Ret (acc +:+ seg +:+ to_slashes p +:+ "/").
Proof.
  intros Hc. induction p as [|d p IH]; intros seg acc Hseg Hp.
  - rewrite string_app_nil_l. simpl. rewrite Hc.
    by rewrite expand_segment_percent_free.
  - apply percent_free_cons in Hp as [Hd Hp].
    rewrite string_app_cons. simpl. destruct (is_path_sep d).
    + rewrite expand_segment_percent_free by done. simpl.
      rewrite IH by done.
      by rewrite string_app_nil_l, !string_app_assoc.
    + rewrite IH.
      * by rewrite !string_app_assoc.
      * apply percent_free_app. split; [done|].
        apply percent_free_cons. done.
      * done.
Qed.

Lemma fix_path_slashes (environ : gmap string string)
    (fuel : nat) (p : string) (c : ascii) :
  percent_free p → is_path_sep c = true →
  (S (String.length p) < fuel)%nat →
  fix_path environ fuel (p +:+ String c "") = Ret (to_slashes p +:+ "/").
Proof.
  intros Hp Hc Hfuel.
  rewrite fix_path_segments by (rewrite string_app_length; simpl; lia).
  by rewrite (fix_path_stitch_percent_free environ p c Hc "" "").
Qed.

(** X18. On a path that has no percent sign and ends with a
    separator, [fix_path] only turns every separator into a slash: each
    other character stays where it is, and the environment is not
    consulted. *)
Theorem fix_path_normalises_separators (environ : gmap string string)
    (fuel : nat) (p : string) (c : ascii) :
  percent_free p → is_path_sep c = true →
  (S (String.length p) < fuel)%nat →
  fix_path environ fuel (p +:+ String c "") = Ret (to_slashes p +:+ "/").
Proof.
  intros Hp Hc Hfuel. by apply fix_path_slashes.
Qed.

Lemma fix_path_normalises_separators_witness :
  fix_path ∅ 20 ("C:\Users\me/src" +:+ "\") = Ret "C:/Users/me/src/".
Proof.
  apply (fix_path_normalises_separators ∅ 20 "C:\Users\me/src" "\").
  - reflexivity.
  - reflexivity.
  - simpl. lia.
Defined.

Lemma to_slashes_idempotent (s : string) :
  to_slashes (to_slashes s) = to_slashes s.
Proof.
  induction s as [|c s IH]; simpl; [done|]. rewrite IH.
  by destruct (is_path_sep c) eqn:Hc; [|rewrite Hc].
Qed.

Lemma to_slashes_percent_free (s : string) :
  percent_free s → percent_free (to_slashes s).
Proof.
  induction s as [|c s IH]; [done|]. simpl.
  rewrite !percent_free_cons. intros [Hc Hs]. split; [|by apply IH].
  by destruct (is_path_sep c).
Qed.

Lemma to_slashes_length (s : string) :
  String.length (to_slashes s) = String.length s.
Proof. induction s as [|c s IH]; simpl; [done|by rewrite IH]. Qed.

(** A text is a part that starts a segment, followed by a tail without
    separator. *)
Lemma split_at_last_sep (p : string) :
  ∃ q tail : string, p = q +:+ tail ∧ sep_free tail ∧ segment_start q.
Proof.
  induction p as [|c p (q & tail & -> & Htail & Hq)].
  - exists "", "". split; [done|]. split; [done|by left].
  - destruct Hq as [->|(q' & s & Hs & ->)].
    + rewrite string_app_nil_l. destruct (is_path_sep c) eqn:Hc.
      * exists (String c ""), tail. split; [done|]. split; [done|].
        right. by exists "", c.
      * exists "", (String c tail). split; [done|].
        split; [by apply sep_free_cons|by left].
    + exists (String c (q' +:+ String s "")), tail.
      split; [by rewrite string_app_cons|]. split; [done|].
      right. exists (String c q'), s. by rewrite string_app_cons.
Qed.

(** X19. On a path without percent sign [fix_path] returns a text, and
    that text is a fixed point: applying [fix_path] to it again returns
    it unchanged. *)
Theorem fix_path_idempotent (environ : gmap string string) (fuel : nat)
    (p : string) :
  percent_free p →
  (String.length p < fuel)%nat →
  ∃ r : string,
    fix_path environ fuel p = Ret r ∧ fix_path environ fuel r = Ret r.
Proof.
  intros Hp Hfuel.
  destruct (split_at_last_sep p) as (q & tail & -> & Htail & Hq).
  rewrite string_app_length in Hfuel.
  rewrite (fix_path_tail environ fuel q tail Htail)
    by (rewrite string_app_length; lia).
  apply percent_free_app in Hp as [Hq' _].
  destruct Hq as [->|(q' & s & Hs & ->)].
  - exists "". split; by rewrite fix_path_segments by (simpl; lia).
  - apply percent_free_app in Hq' as [Hq' _].
    rewrite string_app_length in Hfuel. simpl in Hfuel.
    exists (to_slashes q' +:+ "/"). split.
    + apply fix_path_slashes; [done|done|lia].
    + rewrite (fix_path_slashes environ fuel (to_slashes q') "/").
      * by rewrite to_slashes_idempotent.
      * by apply to_slashes_percent_free.
      * done.
      * rewrite to_slashes_length. lia.
Qed.

Lemma fix_path_idempotent_witness :
  ∃ r : string,
    fix_path ∅ 20 "a\b/c.txt" = Ret r ∧ fix_path ∅ 20 r = Ret r.
Proof.
  apply (fix_path_idempotent ∅ 20 "a\b/c.txt").
  - reflexivity.
  - simpl. lia.
Defined.

Lemma path_segments_run (environ : gmap string string) (s rest seg : string) :
  sep_free s →
  path_segments environ (s +:+ rest) seg
  = path_segments environ rest (seg +:+ s).
Proof.
  revert seg. induction s as [|c s IH]; intros seg Hs.
  - by rewrite string_app_nil_l, string_app_nil_r.
  - apply sep_free_cons in Hs as [Hc Hs].
    rewrite string_app_cons. simpl. rewrite Hc, IH by done.
    by rewrite string_app_assoc.
Qed.

Lemma path_segments_after_sep (environ : gmap string string)
    (q rest : string) (s : ascii) :
  is_path_sep s = true →
  ∀ seg : string,
    path_segments environ ((q +:+ String s "") +:+ rest) seg
    = path_segments environ (q +:+ String s "") seg
      ++ path_segments environ rest "".
Proof.
  intros Hs. induction q as [|c q IH]; intros seg.
  - rewrite string_app_nil_l, string_app_cons, string_app_nil_l.
    simpl. by rewrite Hs.
  - rewrite !string_app_cons. simpl. destruct (is_path_sep c).
    + by rewrite IH.
    + by rewrite IH.
Qed.

Lemma path_segments_after_start (environ : gmap string string)
    (q rest : string) :
  segment_start q →
  path_segments environ (q +:+ rest) ""
  = path_segments environ q "" ++ path_segments environ rest "".
Proof.
  intros [->|(q' & s & Hs & ->)]; [done|].
  by apply path_segments_after_sep.
Qed.

Lemma fix_path_stitch_app (a b : list (option string)) (acc : string) :
  fix_path_stitch (a ++ b) acc
  = (r ← fix_path_stitch a acc; fix_path_stitch b r).
Proof.
  revert acc. induction a as [|[s|] a IH]; intros acc; simpl; [done| |done].
  apply IH.
Qed.

Lemma fix_path_stitch_none (a b : list (option string)) (acc : string) :
  fix_path_stitch (a ++ None :: b) acc = Raise TypeError.
Proof.
  revert acc. induction a as [|[s|] a IH]; intros acc; simpl; [done| |done].
  apply IH.
Qed.

Lemma substring_prefix (a b : string) :
  String.substring 0 (String.length a) (a +:+ b) = a.
Proof.
  induction a as [|c a IH]; [by destruct b|].
  rewrite string_app_cons. simpl. by rewrite IH.
Qed.

(** [seg[1:-1]] on a segment of at least two characters. *)
Lemma str_slice_inner (a x : ascii) (name : string) :
  str_slice (String a (name +:+ String x "")) 1 (-1) = name.
Proof.
  unfold str_slice. cbv zeta. simpl String.length.
  rewrite string_app_length. simpl String.length.
  change (1 <? 0) with false. change (-1 <? 0) with true. cbv iota.
  rewrite Z.min_l, Z.max_r by lia.
  destruct name as [|c name].
  - by destruct (Z.leb_spec (-1 + Z.of_nat (S (0 + 1))) 1); [|simpl in *; lia].
  - destruct (Z.leb_spec
                (-1 + Z.of_nat (S (String.length (String c name) + 1))) 1)
      as [Hle|Hgt]; [simpl in Hle; lia|].
    replace (Z.to_nat
               (-1 + Z.of_nat (S (String.length (String c name) + 1)) - 1))
      with (String.length (String c name)) by lia.
    change (Z.to_nat 1) with 1%nat.
    change (String.substring 1 ?m (String a ?s)) with (String.substring 0 m s).
    apply substring_prefix.
Qed.

Lemma expand_segment_variable (environ : gmap string string)
    (name : string) (x : ascii) :
  name ≠ "" →
  expand_segment environ (String "%" (name +:+ String x ""))
  = environ !! name.
Proof.
  intros Hname. unfold expand_segment. rewrite str_slice_inner.
  simpl String.length. rewrite string_app_length. simpl String.length.
  destruct name as [|c name]; [done|].
  by destruct (Z.ltb_spec 2 (Z.of_nat (S (String.length (String c name) + 1))));
    [|simpl in *; lia].
Qed.

(** The segments of a text with a variable reference at the start of a
    segment. *)
Lemma path_segments_variable (environ : gmap string string)
    (q name post : string) (x c : ascii) :
  segment_start q →
  name ≠ "" → sep_free (name +:+ String x "") → is_path_sep c = true →
  path_segments environ
    (q +:+ String "%" (name +:+ String x (String c post))) ""
  = path_segments environ q ""
    ++ environ !! name :: path_segments environ post "".
Proof.
  intros Hq Hname Hsep Hc.
  rewrite path_segments_after_start by done. f_equal.
  replace (String "%" (name +:+ String x (String c post)))
    with (String "%" (name +:+ String x "") +:+ String c post)
    by by rewrite string_app_cons, string_app_assoc.
  rewrite path_segments_run by by apply sep_free_cons.
  rewrite string_app_nil_l. simpl. rewrite Hc.
  by rewrite expand_segment_variable.
Qed.

(** X20. A segment of the form percent sign, name, one more character
    refers to the environment variable [name], whatever the last
    character is. When that variable is not set, [fix_path] raises
    [TypeError], wherever in the path the segment stands. *)
Theorem fix_path_unset_variable (environ : gmap string string) (fuel : nat)
    (q name post : string) (x c : ascii) :
  segment_start q →
  name ≠ "" → sep_free (name +:+ String x "") → is_path_sep c = true →
  environ !! name = None →
  (String.length (q +:+ String "%" (name +:+ String x (String c post))) < fuel)%nat →
  fix_path environ fuel (q +:+ String "%" (name +:+ String x (String c post)))
  = Raise TypeError.
Proof.
  intros Hq Hname Hsep Hc Henv Hfuel.
  rewrite fix_path_segments by done.
  rewrite path_segments_variable, Henv by done.
  apply fix_path_stitch_none.
Qed.

Lemma fix_path_unset_variable_witness :
  fix_path {["HOME" := "/root"]} 30 ("src/" +:+ String "%" ("TMP" +:+ String "%" (String "/" "obj/")))
  = Raise TypeError.
Proof.
  apply (fix_path_unset_variable {["HOME" := "/root"]} 30 "src/" "TMP" "obj/"
           "%" "/").
  - right. by exists "src", "/"%char.
  - discriminate.
  - reflexivity.
  - reflexivity.
  - vm_compute. reflexivity.
  - simpl. lia.
Defined.

Lemma to_slashes_app (a b : string) :
  to_slashes (a +:+ b) = to_slashes a +:+ to_slashes b.
Proof.
  induction a as [|c a IH]; [done|].
  rewrite string_app_cons. simpl. by rewrite IH.
Qed.

Lemma fix_path_stitch_start (environ : gmap string string) (q : string) :
  segment_start q → percent_free q →
  fix_path_stitch (path_segments environ q "") "" = Ret (to_slashes q).
Proof.
  intros [->|(q' & s & Hs & ->)] Hq; [done|].
  apply percent_free_app in Hq as [Hq _].
  rewrite (fix_path_stitch_percent_free environ q' s Hs "" "") by done.
  rewrite to_slashes_app. simpl. by rewrite Hs.
Qed.

(** X21. When the variable is set, its value takes the place of the
    segment as it is, without being scanned for separators or for further
    references, and the rest of the path is treated as usual: for a path
    that has no other percent sign and ends with a separator, the result
    is the path before the segment with slashes, the value, a slash, and
    the path after the segment with slashes. *)
Theorem fix_path_expands_variable (environ : gmap string string) (fuel : nat)
    (q name p v : string) (x c c' : ascii) :
  segment_start q → percent_free q →
  name ≠ "" → sep_free (name +:+ String x "") → is_path_sep c = true →
  percent_free p → is_path_sep c' = true →
  environ !! name = Some v →
  (String.length
     (q +:+ String "%" (name +:+ String x (String c (p +:+ String c' ""))))
   < fuel)%nat →
  fix_path environ fuel
    (q +:+ String "%" (name +:+ String x (String c (p +:+ String c' ""))))
  = Ret (to_slashes q +:+ v +:+ "/" +:+ to_slashes p +:+ "/").
Proof.
  intros Hq Hqp Hname Hsep Hc Hp Hc' Henv Hfuel.
  rewrite fix_path_segments by done.
  rewrite path_segments_variable, Henv by done.
  rewrite fix_path_stitch_app, fix_path_stitch_start by done.
  simpl. rewrite (fix_path_stitch_percent_free environ p c' Hc' "") by done.
  by rewrite string_app_nil_l, !string_app_assoc.
Qed.

Lemma fix_path_expands_variable_witness :
  fix_path {["HOME" := "C:\Users"]} 30
    ("" +:+ String "%" ("HOME" +:+ String "!" (String "/" ("src\obj" +:+ String "/" ""))))
  = Ret ("" +:+ "C:\Users" +:+ "/" +:+ "src/obj" +:+ "/").
Proof.
  apply (fix_path_expands_variable {["HOME" := "C:\Users"]} 30 "" "HOME"
           "src\obj" "C:\Users" "!" "/" "/").
  - by left.
  - reflexivity.
  - discriminate.
  - reflexivity.
  - reflexivity.
  - reflexivity.
  - reflexivity.
  - vm_compute. reflexivity.
  - simpl. lia.
Defined.

(** * [get_output_file_name] *)

Lemma str_split_loop_no_sep (sep : ascii) (s cur : string) :
  all_chars (λ c, negb (ascii_eqb c sep)) s = true →
  str_split_loop sep s cur = [cur +:+ s].
Proof.
  revert cur. induction s as [|c s IH]; intros cur Hs.
  - by rewrite string_app_nil_r.
  - simpl in Hs. apply andb_true_iff in Hs as [Hc Hs].
    apply negb_true_iff in Hc. simpl. rewrite Hc, IH by done.
    by rewrite string_app_assoc.
Qed.

(** X22. A target type that starts with [lib] and has no colon is
    refused with a [ValueError], before the OS name is looked at: so also
    when the OS name is [None]. *)
Theorem output_name_lib_without_kind (state : BuildState.t)
    (target : BuildTarget.t) (osName : option string) (arch : string) :
  str_startswith (BuildTarget.type target) "lib" = true →
  all_chars (λ c, negb (ascii_eqb c ":")) (BuildTarget.type target) = true →
  get_output_file_name state target osName arch
  = Raise (OtherError "ValueError" "Invalid target type: %s").
Proof.
  intros Hlib Hcolon. unfold get_output_file_name.
  rewrite bool_decide_eq_false_2.
  - rewrite Hlib. unfold str_split.
    by rewrite str_split_loop_no_sep by done.
  - intros Hexe. rewrite Hexe in Hlib. discriminate Hlib.
Qed.

Lemma output_name_lib_without_kind_witness :
  get_output_file_name BuildState.init (BuildTarget.mk "core" "library" "src")
    None "x64"
  = Raise (OtherError "ValueError" "Invalid target type: %s").
Proof.
  apply output_name_lib_without_kind; reflexivity.
Defined.

Lemma str_lower_app (a b : string) :
  str_lower (a +:+ b) = str_lower a +:+ str_lower b.
Proof.
  induction a as [|c a IH]; [done|].
  rewrite string_app_cons. simpl. by rewrite IH.
Qed.

Lemma str_lower_length (s : string) :
  String.length (str_lower s) = String.length s.
Proof. induction s as [|c s IH]; simpl; [done|by rewrite IH]. Qed.

Lemma substring_middle (a s b : string) :
  String.substring (String.length a) (String.length s) (a +:+ s +:+ b) = s.
Proof.
  induction a as [|c a IH].
  - rewrite string_app_nil_l. apply substring_prefix.
  - rewrite string_app_cons. simpl. exact IH.
Qed.

(** [find] does find a text that occurs. *)
Lemma str_find_occurs (a sub b : string) :
  sub ≠ "" → (str_find (a +:+ sub +:+ b) sub =? -1) = false.
Proof.
  intros Hsub. unfold str_find.
  destruct (String.index 0 sub (a +:+ sub +:+ b)) as [n|] eqn:Hidx.
  - apply Z.eqb_neq. lia.
  - exfalso.
    apply (index_correct3 0 (String.length a) sub _ Hidx Hsub); [lia|].
    apply substring_middle.
Qed.

(** X23. The OS tests look for [win] and [linux] anywhere in the OS
    name, in any letter case. Every OS name in which [win] occurs, such as
    [darwin], gets [.exe] for an executable and [.dll] for a dynamic
    library, also when [linux] occurs in it too; every OS name in which
    [linux] occurs gets [.a] for a static library. *)
Theorem output_name_os_tests (state : BuildState.t) (name src arch : string)
    (a w b : string) :
  (str_lower w = "win" →
   get_output_file_name state (BuildTarget.mk name "executable" src)
     (Some (a +:+ w +:+ b)) arch
   = Ret (name +:+ "-" +:+ arch +:+ "-" +:+ (a +:+ w +:+ b) +:+ ".exe")
   ∧ get_output_file_name state (BuildTarget.mk name "lib:dynamic" src)
       (Some (a +:+ w +:+ b)) arch
     = Ret (name +:+ "-" +:+ arch +:+ "-" +:+ (a +:+ w +:+ b) +:+ ".dll"))
  ∧ (str_lower w = "linux" →
     get_output_file_name state (BuildTarget.mk name "lib:static" src)
       (Some (a +:+ w +:+ b)) arch
     = Ret (name +:+ "-" +:+ arch +:+ "-" +:+ (a +:+ w +:+ b) +:+ ".a")).
Proof.
  assert (∀ sub, str_lower w = sub → sub ≠ "" →
            (str_find (str_lower (a +:+ w +:+ b)) sub =? -1) = false) as Hfind.
  { intros sub <- Hsub. rewrite !str_lower_app. by apply str_find_occurs. }
  assert (∀ ext : string,
            name +:+ "-" +:+ get_platform_str (Some (a +:+ w +:+ b)) arch
            +:+ ext
            = name +:+ "-" +:+ arch +:+ "-" +:+ (a +:+ w +:+ b) +:+ ext)
    as Hname.
  { intros ext. unfold get_platform_str. by rewrite !string_app_assoc. }
  split.
  - intros Hw. split.
    + unfold get_output_file_name. simpl BuildTarget.type.
      rewrite bool_decide_eq_true_2 by done. simpl osName_lower.
      simpl mbind at 2. rewrite (Hfind "win") by done.
      simpl BuildTarget.name. by rewrite <- Hname.
    + unfold get_output_file_name. simpl BuildTarget.type.
      rewrite bool_decide_eq_false_2 by done.
      change (str_startswith "lib:dynamic" "lib") with true. cbv iota.
      change (str_split "lib:dynamic" ":") with ["lib"; "dynamic"]. cbv zeta.
      change (Z.of_nat (length ["lib"; "dynamic"]) <? 2) with false. cbv iota.
      change (list_getitem ["lib"; "dynamic"] 1) with (Ret "dynamic").
      simpl mbind at 2. rewrite (Hfind "win") by done.
      simpl BuildTarget.name. by rewrite <- Hname.
  - intros Hw.
    unfold get_output_file_name. simpl BuildTarget.type.
    rewrite bool_decide_eq_false_2 by done.
    change (str_startswith "lib:static" "lib") with true. cbv iota.
    change (str_split "lib:static" ":") with ["lib"; "static"]. cbv zeta.
    change (Z.of_nat (length ["lib"; "static"]) <? 2) with false. cbv iota.
    change (list_getitem ["lib"; "static"] 1) with (Ret "static").
    simpl mbind at 2. rewrite (Hfind "linux") by done.
    simpl BuildTarget.name. by rewrite <- Hname.
Qed.

Lemma output_name_os_tests_witness :
  get_output_file_name BuildState.init (BuildTarget.mk "app" "executable" "src")
    (Some ("dar" +:+ "win" +:+ "")) "x64"
  = Ret ("app" +:+ "-" +:+ "x64" +:+ "-" +:+ ("dar" +:+ "win" +:+ "") +:+ ".exe")
  ∧ get_output_file_name BuildState.init
      (BuildTarget.mk "app" "lib:static" "src")
      (Some ("GNU/" +:+ "Linux" +:+ "")) "x64"
    = Ret ("app" +:+ "-" +:+ "x64" +:+ "-" +:+ ("GNU/" +:+ "Linux" +:+ "")
           +:+ ".a").
Proof.
  destruct (output_name_os_tests BuildState.init "app" "src" "x64"
              "dar" "win" "") as [Hwin _].
  destruct (output_name_os_tests BuildState.init "app" "src" "x64"
              "GNU/" "Linux" "") as [_ Hlinux].
  split.
  - apply Hwin. reflexivity.
  - apply Hlinux. reflexivity.
Defined.

(** X24. Without an OS name: [get_platform_str] leaves the OS part
    out, and a target that is neither an executable nor a library gets the
    name of the target, a dash and the architecture; an executable fails
    with an [AttributeError], since the extension is chosen by a method
    call on the OS name. With an OS name, a target that is neither an
    executable nor a library gets no extension. *)
Theorem output_name_without_os_name (state : BuildState.t)
    (target : BuildTarget.t) (arch : string) :
  (BuildTarget.type target = "executable" →
   get_output_file_name state target None arch
   = Raise (OtherError "AttributeError"
              "'NoneType' object has no attribute 'lower'"))
  ∧ (BuildTarget.type target ≠ "executable" →
     str_startswith (BuildTarget.type target) "lib" = false →
     get_output_file_name state target None arch
     = Ret (BuildTarget.name target +:+ "-" +:+ arch)
     ∧ ∀ os : string,
         get_output_file_name state target (Some os) arch
         = Ret (BuildTarget.name target +:+ "-" +:+ arch +:+ "-" +:+ os)).
Proof.
  split.
  - intros Hexe. unfold get_output_file_name.
    by rewrite bool_decide_eq_true_2 by done.
  - intros Hexe Hlib. unfold get_output_file_name.
    rewrite bool_decide_eq_false_2 by done. rewrite Hlib.
    unfold get_platform_str. simpl. split.
    + by rewrite !string_app_nil_r.
    + intros os. by rewrite string_app_nil_r.
Qed.

Lemma output_name_without_os_name_witness :
  get_output_file_name BuildState.init (BuildTarget.mk "app" "executable" "src")
    None "x64"
  = Raise (OtherError "AttributeError"
             "'NoneType' object has no attribute 'lower'")
  ∧ get_output_file_name BuildState.init (BuildTarget.mk "doc" "manual" "src")
      None "x64"
    = Ret ("doc" +:+ "-" +:+ "x64").
Proof.
  destruct (output_name_without_os_name BuildState.init
              (BuildTarget.mk "app" "executable" "src") "x64") as [Hexe _].
  destruct (output_name_without_os_name BuildState.init
              (BuildTarget.mk "doc" "manual" "src") "x64") as [_ Hother].
  split.
  - apply Hexe. reflexivity.
  - apply Hother; [discriminate|reflexivity].
Defined.

(** X25. Whenever [get_output_file_name] returns, the result is the
    name of the target, a dash, the platform text and one of seven
    extensions, the empty one included. *)
Theorem output_name_shape (state : BuildState.t) (target : BuildTarget.t)
    (osName : option string) (arch r : string) :
  get_output_file_name state target osName arch = Ret r →
  ∃ ext : string,
    ext ∈ [""; ".exe"; ".a"; ".lib"; ".dll"; ".so"; ".dylib"]
    ∧ r = BuildTarget.name target +:+ "-" +:+ get_platform_str osName arch
          +:+ ext.
Proof.
  unfold get_output_file_name. intros Hr.
  match type of Hr with
  | (?m ≫= _) = _ => destruct m as [ext|e|] eqn:Hext; [|done..]
  end.
  simpl in Hr. injection Hr as <-. exists ext. split; [|done].
  repeat match type of Hext with
    | (if ?b then _ else _) = _ => destruct b
    | (let _ := _ in _) = _ => cbv zeta in Hext
    | (?m ≫= _) = _ => destruct m; simpl in Hext; [|done..]
    | Ret _ = Ret _ => injection Hext as <-
    | _ => done
    end.
  all: set_solver.
Qed.

Lemma output_name_shape_witness :
  ∃ ext : string,
    ext ∈ [""; ".exe"; ".a"; ".lib"; ".dll"; ".so"; ".dylib"]
    ∧ "core-x64-mac.dylib"
      = "core" +:+ "-" +:+ get_platform_str (Some "mac") "x64" +:+ ext.
Proof.
  apply (output_name_shape BuildState.init
           (BuildTarget.mk "core" "lib:dynamic" "src") (Some "mac") "x64").
  reflexivity.
Defined.

(** * What [parse] reads of the engine *)

Lemma same_run_refl {A} (m : M A) : same_run m m.
Proof. by intros h. Qed.

Lemma same_run_bind {A B} (m1 m2 : M A) (k1 k2 : A → M B) :
  same_run m1 m2 →
  (∀ a, same_run (k1 a) (k2 a)) →
  same_run (m1 ≫= k1) (m2 ≫= k2).
Proof.
  intros Hm Hk h. unfold mbind, M_bind. rewrite (Hm h).
  destruct (m2 h) as [[a|e|] h']; [apply Hk|done|done].
Qed.

Section SameTables.
Context (E : ArgParser.pyenv) (self self' : ArgParser.t).
Hypothesis Hmap : ArgParser.arg_map self = ArgParser.arg_map self'.
Hypothesis Hpos : ArgParser.pos_args self = ArgParser.pos_args self'.
Hypothesis Hsw : ∀ (f : function) (arg : Arg.t),
  ArgParser.call_sw_handler E f self arg
  = ArgParser.call_sw_handler E f self' arg.
Hypothesis Hpf : ∀ (f : function) (arg : Arg.t) (reader : Reader.t),
  ArgParser.call_pfunc E f self arg reader
  = ArgParser.call_pfunc E f self' arg reader.

Lemma parse_val_same (arg : Arg.t) (reader : Reader.t) :
  ArgParser.parse_val E self arg reader
  = ArgParser.parse_val E self' arg reader.
Proof.
  unfold ArgParser.parse_val, ArgParser.TypeParser_parse. by rewrite Hpf.
Qed.

Ltac same_run_step :=
  first
    [ apply same_run_refl
    | rewrite Hmap
    | rewrite Hpos
    | rewrite Hsw
    | rewrite parse_val_same
    | apply same_run_bind; [|intros ?]
    | match goal with
      | |- same_run (match ?x with _ => _ end) _ => destruct x
      end ].

Lemma parse_short_same (fuel : nat) (out : loc) (reader : Reader.t) :
  same_run (ArgParser.parse_short E fuel self out reader)
           (ArgParser.parse_short E fuel self' out reader).
Proof.
  revert reader. induction fuel as [|fuel IH]; intros reader.
  - apply same_run_refl.
  - cbn [ArgParser.parse_short]. repeat same_run_step. apply IH.
Qed.

Lemma parse_loop_same (fuel : nat) (out : loc) (pIdx : Z) (reader : Reader.t) :
  same_run (ArgParser.parse_loop E fuel self out pIdx reader)
           (ArgParser.parse_loop E fuel self' out pIdx reader).
Proof.
  revert pIdx reader. induction fuel as [|fuel IH]; intros pIdx reader.
  - apply same_run_refl.
  - cbn [ArgParser.parse_loop].
    repeat same_run_step; first [apply IH | apply parse_short_same].
Qed.

Lemma parse_same (fuel : nat) (str : string) (out : option loc) :
  same_run (ArgParser.parse E fuel self str out)
           (ArgParser.parse E fuel self' str out).
Proof.
  unfold ArgParser.parse. repeat same_run_step. apply parse_loop_same.
Qed.

End SameTables.

(** X26. [parse] reads two things of the engine: the by-name table and
    the positional list. Two engines that agree on these, and that the
    handlers and value parsers do not tell apart, parse every text alike,
    whatever their by-char tables and type registries hold; so neither
    what the by-char table holds nor what [define_type] registered has any
    effect on parsing. *)
Theorem parse_reads_names_and_positions (E : ArgParser.pyenv)
    (self self' : ArgParser.t) :
  ArgParser.arg_map self = ArgParser.arg_map self' →
  ArgParser.pos_args self = ArgParser.pos_args self' →
  (∀ (f : function) (arg : Arg.t),
     ArgParser.call_sw_handler E f self arg
     = ArgParser.call_sw_handler E f self' arg) →
  (∀ (f : function) (arg : Arg.t) (reader : Reader.t),
     ArgParser.call_pfunc E f self arg reader
     = ArgParser.call_pfunc E f self' arg reader) →
  ∀ (fuel : nat) (str : string) (out : option loc) (h : heap),
    ArgParser.parse E fuel self str out h
    = ArgParser.parse E fuel self' str out h.
Proof.
  intros Hmap Hpos Hsw Hpf fuel str out h.
  by apply parse_same.
Qed.

Lemma parse_reads_names_and_positions_witness :
  ArgParser.parse Collab.env 3 Fixtures.engine_quiet "-q" None []
  = ArgParser.parse Collab.env 3
      (ArgParser.define_type
         (ArgParser.mk (ArgParser.arg_map Fixtures.engine_quiet) [] ∅ ∅)
         Collab.t_int)
      "-q" None [].
Proof.
  apply parse_reads_names_and_positions; reflexivity.
Defined.
